(** * Operator splitting for the bidomain equations: [xalbrain/splittingsolver.py]

    A shallow embedding of [SplittingSolver]: its construction, [merge],
    [step] and the generator [solve], with the ODE and PDE sub-solvers as
    collaborators whose behaviour is a parameter of the development.

    Numbers.  A Python float is represented by the rational it denotes
    ([Qc], the canonical rationals, whose equality is Leibniz equality).
    Comparison and negation are exact on floats: [theta == 1.0] is decidable
    equality with [1].  Addition, subtraction, multiplication and division
    round: which float [t0 + theta*dt] is, is not fixed here but a parameter
    of the development ([Float.Arith]), and nothing is assumed about it.
    Infinities and NaN are not represented.

    Mutable objects.  The solver owns three [dolfin.Function] objects,
    [vs_], [vs] and [vur]; they are mutated in place and handed out by
    reference.  The embedding keeps them in the solver record (the store)
    and represents a reference by a [Ref]. *)

From Stdlib Require Import QArith Qcanon Qround Lqa.
From stdpp Require Import base numbers list strings.

#[local] Open Scope Qc_scope.

(** ** Numbers *)

Module Float.

(** The rounding operations on floats: [x + y], [x - y], [x * y] and
    [x / y] for [y] other than zero. *)
Record Arith : Type :=
  { add : Qc → Qc → Qc;
    sub : Qc → Qc → Qc;
    mul : Qc → Qc → Qc;
    div : Qc → Qc → Qc }.

(** The operations that do not round, for inputs on which the float
    operations are exact. *)
Definition exact : Arith :=
  {| add := Qcplus; sub := Qcminus; mul := Qcmult; div := Qcdiv |}.

End Float.

(** ** Time *)

(** [interval: Tuple[float, float]] *)
Definition TimeInterval : Type := Qc * Qc.

(** ** Exceptions *)

Inductive Exn : Type :=
  | AssertionError (msg : string)
  | UnboundLocalError (name : string)
  | RuntimeError (msg : string)
  | ConfigurationError (msg : string).

#[global] Instance Exn_eq_dec : EqDecision Exn.
Proof. solve_decision. Defined.

(** Outcome of a call: a value, or a raised exception. *)
Inductive Res (A : Type) : Type :=
  | Ok (a : A)
  | Raise (e : Exn).
Arguments Ok {A} a.
Arguments Raise {A} e.

#[global] Instance Res_eq_dec {A : Type} `{EqDecision A} : EqDecision (Res A).
Proof. solve_decision. Defined.

(** ** dolfin Functions *)

(** The degrees of freedom of one scalar sub-space. *)
Definition Field : Type := list Qc.

(** A [dolfin.Function]: component 0 and the components after it.  A
    function on a scalar space has no further component. *)
Record Function : Type := mkFunction { sub0 : Field; rest : list Field }.

#[global] Instance Function_eq_dec : EqDecision Function.
Proof. solve_decision. Defined.

Definition components (f : Function) : list Field := sub0 f :: rest f.

Definition scalar (x : Field) : Function := {| sub0 := x; rest := [] |}.

(** [f.sub(i)]: the i-th sub-function, a function on a scalar space. *)
Definition sub (f : Function) (i : nat) : option Function :=
  scalar <$> components f !! i.

(** [FunctionAssigner(VS.sub(0), V).assign(receiver.sub(0), v)]: the
    assigner was built for a scalar source space [V]; it copies the dofs of
    [v] into component 0 of the receiver and touches nothing else.  A source
    that is not a function on a scalar space is refused by dolfin. *)
Definition FunctionAssigner_assign (receiver v : Function) : Res Function :=
  match rest v with
  | [] => Ok {| sub0 := sub0 v; rest := rest receiver |}
  | _ :: _ => Raise (RuntimeError "FunctionAssigner: source is not in the assigning space")
  end.

(** ** Parameters *)

Module SplittingParameters.
Record t : Type := { theta : Qc; apply_stimulus_current_to_pde : bool }.
End SplittingParameters.

Module BidomainParameters.
Record t : Type := { theta : Qc; solver : string }.
End BidomainParameters.

Module SingleCellParameters.
Record t : Type := { solver : string }.
End SingleCellParameters.

Inductive LinearSolverParameters : Type := KrylovParameters | LUParameters.

#[global] Instance SplittingParameters_eq_dec : EqDecision SplittingParameters.t.
Proof. solve_decision. Defined.

#[global] Instance BidomainParameters_eq_dec : EqDecision BidomainParameters.t.
Proof. solve_decision. Defined.

#[global] Instance SingleCellParameters_eq_dec : EqDecision SingleCellParameters.t.
Proof. solve_decision. Defined.

#[global] Instance LinearSolverParameters_eq_dec : EqDecision LinearSolverParameters.
Proof. solve_decision. Defined.

(** ** The cardiac model *)

(** A [dolfin.Expression], by its source. *)
Record Expression : Type := { cppcode : string }.

(** What the solver reads off the model: [stimulus()] and
    [applied_current()]. *)
Record CardiacModel : Type :=
  { stimulus : Expression; applied_current : Expression }.

#[global] Instance Expression_eq_dec : EqDecision Expression.
Proof. solve_decision. Defined.

#[global] Instance CardiacModel_eq_dec : EqDecision CardiacModel.
Proof. solve_decision. Defined.

(** ** Sub-solver objects

    The classes of [xalbrain.cellsolver], [xalbrain.bidomainsolver] and
    [xalbrain.monodomainsolver] are collaborators.  An object is recorded by
    its class and the keyword arguments it was constructed with. *)

Inductive ODESolverClass : Type := BasicCardiacODESolver | CardiacODESolver.

Inductive PDESolverClass : Type :=
  | BasicBidomainSolver | BidomainSolver
  | BasicMonodomainSolver | MonodomainSolver.

Module ODESolver.
Record t : Type :=
  { class : ODESolverClass;
    parameters : SingleCellParameters.t;
    I_s : option Expression }.
End ODESolver.

Module PDESolver.
Record t : Type :=
  { class : PDESolverClass;
    parameters : BidomainParameters.t;
    linear_solver_parameters : LinearSolverParameters;
    I_s : option Expression;
    I_a : option Expression }.
End PDESolver.

#[global] Instance ODESolverClass_eq_dec : EqDecision ODESolverClass.
Proof. solve_decision. Defined.

#[global] Instance PDESolverClass_eq_dec : EqDecision PDESolverClass.
Proof. solve_decision. Defined.

#[global] Instance ODESolver_eq_dec : EqDecision ODESolver.t.
Proof. solve_decision. Defined.

#[global] Instance PDESolver_eq_dec : EqDecision PDESolver.t.
Proof. solve_decision. Defined.

(** What a sub-solver's [step] leaves behind, as far as the splitting
    solver reads it afterwards: the new content of the function the step
    writes ([vs] for the ODE solver, [vur] for the PDE solver, as the comments
    of [SplittingSolver.step] have it), and the exception it raised, if any.
    That a sub-solver writes no other function of the splitting solver is
    assumed with this type; what it does to its own state and to the time
    [Constant] of the model, which the sub-solvers share, is not
    represented. *)
Record Outcome : Type := { written : Function; raised : option Exn }.

(** ** The solver object *)

Record SplittingSolver : Type :=
  { _model : CardiacModel;
    parameters : SplittingParameters.t;
    pde_parameters : BidomainParameters.t;
    ode_parameters : SingleCellParameters.t;
    linear_solver_parameters : LinearSolverParameters;
    ode_solver : ODESolver.t;
    pde_solver : PDESolver.t;
    vs_ : Function;
    vs : Function;
    vur : Function }.

#[global] Instance SplittingSolver_eq_dec : EqDecision SplittingSolver.
Proof. solve_decision. Defined.

Definition set_vs_ (f : Function) (s : SplittingSolver) : SplittingSolver :=
  {| _model := _model s; parameters := parameters s;
     pde_parameters := pde_parameters s; ode_parameters := ode_parameters s;
     linear_solver_parameters := linear_solver_parameters s;
     ode_solver := ode_solver s; pde_solver := pde_solver s;
     vs_ := f; vs := vs s; vur := vur s |}.

Definition set_vs (f : Function) (s : SplittingSolver) : SplittingSolver :=
  {| _model := _model s; parameters := parameters s;
     pde_parameters := pde_parameters s; ode_parameters := ode_parameters s;
     linear_solver_parameters := linear_solver_parameters s;
     ode_solver := ode_solver s; pde_solver := pde_solver s;
     vs_ := vs_ s; vs := f; vur := vur s |}.

Definition set_vur (f : Function) (s : SplittingSolver) : SplittingSolver :=
  {| _model := _model s; parameters := parameters s;
     pde_parameters := pde_parameters s; ode_parameters := ode_parameters s;
     linear_solver_parameters := linear_solver_parameters s;
     ode_solver := ode_solver s; pde_solver := pde_solver s;
     vs_ := vs_ s; vs := vs s; vur := f |}.

(** References to the three functions the solver owns. *)
Inductive Ref : Type := ref_vs_ | ref_vs | ref_vur.

#[global] Instance Ref_eq_dec : EqDecision Ref.
Proof. solve_decision. Defined.

Definition deref (s : SplittingSolver) (r : Ref) : Function :=
  match r with ref_vs_ => vs_ s | ref_vs => vs s | ref_vur => vur s end.

Definition store (r : Ref) (f : Function) (s : SplittingSolver) : SplittingSolver :=
  match r with
  | ref_vs_ => set_vs_ f s
  | ref_vs => set_vs f s
  | ref_vur => set_vur f s
  end.

(** ** Calls into the collaborators, in the order they are made *)

Inductive Call : Type :=
  | new_ode_solver (o : ODESolver.t)
  | new_pde_solver (p : PDESolver.t)
  | ode_solver_step_call (iv : TimeInterval)
  | pde_solver_step_call (iv : TimeInterval)
  | merger_assign_call
  | vs__assign_call.

#[global] Instance Call_eq_dec : EqDecision Call.
Proof. solve_decision. Defined.

(** ** The state monad of the methods

    A method runs on the solver object and the log of collaborator calls; it
    returns a value or raises, and in both cases leaves a world behind. *)

Record World : Type := { self : SplittingSolver; calls : list Call }.

#[global] Instance World_eq_dec : EqDecision World.
Proof. solve_decision. Defined.

Definition M (A : Type) : Type := World → Res A * World.

#[global] Instance M_ret : MRet M := λ A a w, (Ok a, w).

#[global] Instance M_bind : MBind M := λ A B k m w,
  match m w with
  | (Ok a, w') => k a w'
  | (Raise e, w') => (Raise e, w')
  end.

Definition raise {A : Type} (e : Exn) : M A := λ w, (Raise e, w).

Definition get_self : M SplittingSolver := λ w, (Ok (self w), w).

Definition modify (f : SplittingSolver → SplittingSolver) : M unit :=
  λ w, (Ok tt, {| self := f (self w); calls := calls w |}).

Definition call (c : Call) : M unit :=
  λ w, (Ok tt, {| self := self w; calls := calls w ++ [c] |}).

Definition lift {A : Type} (r : Res A) : M A := λ w, (r, w).

(** A method that mutates the object it is handed: read the object behind
    the reference, run the method, write the result back. *)
Definition in_place (r : Ref) (method : Function → M Function) : M unit :=
  s ← get_self;
  f ← method (deref s r);
  modify (store r f).

#[global] Instance Res_ret : MRet Res := λ A a, Ok a.

#[global] Instance Res_bind : MBind Res := λ A B k r,
  match r with
  | Ok a => k a
  | Raise e => Raise e
  end.

(** ** The time stepper *)

(** Modelled from the spec: [xalbrain.utils.TimeStepper] is imported by
    [splittingsolver.py] but is not among the sources.  Section 4.1 of the
    specification: for a constant step [dt] the stepper produces a finite
    sequence of intervals that tiles [(T0, T1)]; the last interval is clipped
    so that it never overruns [T1]; it fails with [ConfigurationError] if
    [dt <= 0] or [T0 >= T1].  [time_steps n t0 T1 dt] are the first [n]
    intervals from [t0] on. *)
Fixpoint time_steps (n : nat) (t0 T1 dt : Qc) : list TimeInterval :=
  match n with
  | O => []
  | S n' =>
      if decide (t0 < T1) then
        let t1 := if decide (t0 + dt < T1) then t0 + dt else T1 in
        (t0, t1) :: time_steps n' t1 T1 dt
      else []
  end.

(** Modelled from the spec: the number of steps of size [dt] needed to
    reach [T1] from [T0] (part of the missing [TimeStepper]). *)
Definition num_steps (T0 T1 dt : Qc) : nat :=
  Z.to_nat (Qceiling ((T1 - T0) / dt)%Qc).

(** Modelled from the spec: [TimeStepper(interval, dt)] of the missing
    [xalbrain.utils], for a constant [dt], with the errors of section 4.1. *)
Definition TimeStepper (interval : TimeInterval) (dt : Qc) : Res (list TimeInterval) :=
  let '(T0, T1) := interval in
  if decide (dt ≤ 0) then Raise (ConfigurationError "dt must be positive")
  else if decide (T1 ≤ T0) then Raise (ConfigurationError "empty time interval")
  else Ok (time_steps (num_steps T0 T1 dt) T0 T1 dt).

(** A list of intervals tiles [(a, b)] with steps of at most [dt]: it starts
    at [a], each interval is non-empty and no longer than [dt], each ends
    where the next one starts, and the last one ends at [b]. *)
Inductive tiles (dt : Qc) : Qc → Qc → list TimeInterval → Prop :=
  | tiles_last (a b : Qc) :
      a < b → b - a ≤ dt → tiles dt a b [(a, b)]
  | tiles_step (a m b : Qc) (l : list TimeInterval) :
      a < m → m - a ≤ dt → m < b → tiles dt m b l → tiles dt a b ((a, m) :: l).

(** ** Generator frames *)

(** The frame of the generator returned by [solve]: not started yet,
    suspended at the [yield] with the intervals the time stepper has still to
    produce, or finished (returned or raised). *)
Inductive Frame : Type :=
  | Unstarted (interval : TimeInterval) (dt : Qc)
  | AtYield (time_stepper : list TimeInterval)
  | Finished.

(** What [next] delivers.  The yielded value holds references to the
    solver's functions, not copies of them. *)
Inductive Sent : Type :=
  | Yield (iv : TimeInterval) (fields : Ref * Ref * Ref)
  | StopIteration
  | Raised (e : Exn).

(** ** The AdEx cell model: [cbcbeat/cellmodels/adex.py]

    The methods of [AdExManual], evaluated at one point: [V] and [w] are
    the values of the potential and of the adaptation variable there.
    Numbers are as above.  [exp] is a parameter: on a float it returns a
    float, or raises [OverflowError] when the result is out of range.  The
    base class [CardiacCellModel] is a collaborator: a model object is given
    by the dictionary it keeps in [_parameters]. *)
Module AdEx.

Inductive Exc : Type :=
  | KeyError (key : string)
  | ZeroDivisionError
  | OverflowError
  | ValueError
  | IndexError.

Inductive Result (A : Type) : Type :=
  | Return (a : A)
  | Throw (e : Exc).
Arguments Return {A} a.
Arguments Throw {A} e.

#[global] Instance Result_ret : MRet Result := λ A a, Return a.

#[global] Instance Result_bind : MBind Result := λ A B k r,
  match r with
  | Return a => k a
  | Throw e => Throw e
  end.

(** An [OrderedDict] with string keys, in insertion order. *)
Definition OrderedDict : Type := list (string * Qc).

(** [d[key]] *)
Fixpoint getitem (d : OrderedDict) (key : string) : Result Qc :=
  match d with
  | [] => Throw (KeyError key)
  | (k, x) :: d' => if decide (k = key) then Return x else getitem d' key
  end.

Definition default_parameters : OrderedDict :=
  [("C", Q2Qc 281);
   ("g_L", Q2Qc 30);
   ("E_L", Q2Qc (-706 # 10));
   ("V_T", Q2Qc (-504 # 10));
   ("Delta_T", Q2Qc 2);
   ("tau_w", Q2Qc 144);
   ("a", Q2Qc 4);
   ("spike", Q2Qc 20);
   ("b", Q2Qc (805 # 10000))].

Definition num_states : nat := 1.

(** [x[mask] = f(x[mask])] on a vector: the entries where the mask is set
    are replaced; a mask of another length is an index error. *)
Fixpoint where_ (mask : list bool) (f : Qc → Qc) (xs : list Qc) : Result (list Qc) :=
  match mask, xs with
  | [], [] => Return []
  | m :: mask', x :: xs' =>
      r ← where_ mask' f xs';
      Return ((if m then f x else x) :: r)
  | _, _ => Throw IndexError
  end.

(** [v, s = vs.split(deepcopy=True)]: exactly two components. *)
Definition split2 (vs : Function) : Result (Field * Field) :=
  match rest vs with
  | [s] => Return (sub0 vs, s)
  | _ => Throw ValueError
  end.

(** The content [update] leaves in [vs.sub(0)], and the lines it prints, in
    closed form. *)
Definition reset (spike E_L : Qc) (v : Field) : Field :=
  map (λ x, if bool_decide (spike < x) then E_L else x) v.

Definition printed (spike : Qc) (v : Field) : list string :=
  let v_idx := map (λ x, bool_decide (spike < x)) v in
  if decide (0 < length (filter (λ m : bool, m = true) v_idx))%nat
  then [" *** Spike *** "] else [].

Section Model.

(** The arithmetic of floats, and [exp]. *)
Variable fl : Float.Arith.
Variable exp : Qc → Result Qc.

Local Notation "x ⊕ y" := (Float.add fl x y) (at level 50, left associativity).
Local Notation "x ⊖ y" := (Float.sub fl x y) (at level 50, left associativity).
Local Notation "x ⊗ y" := (Float.mul fl x y) (at level 40, left associativity).

(** [x / y] on numbers *)
Definition div (x y : Qc) : Result Qc :=
  if decide (y = 0) then Throw ZeroDivisionError else Return (Float.div fl x y).

(** [I(V, w)]: the ionic current.  The arguments of [conditional] are
    evaluated before it is called. *)
Definition I (_parameters : OrderedDict) (V w : Qc) : Result Qc :=
  C ← getitem _parameters "C";
  g_L ← getitem _parameters "g_L";
  E_L ← getitem _parameters "E_L";
  V_T ← getitem _parameters "V_T";
  Delta_T ← getitem _parameters "Delta_T";
  spike ← getitem _parameters "spike";
  let tol := 0 in
  let threshold := spike ⊕ tol in
  inv_C ← div 1 C;
  x ← div (V ⊖ V_T) Delta_T;
  exp_x ← exp x;
  let I := if decide (V < threshold)
           then inv_C ⊗ (g_L ⊗ Delta_T ⊗ exp_x ⊖ g_L ⊗ (V ⊖ E_L) ⊖ w)
           else 0 in
  Return (- I).

(** [F(V, w)]: the right-hand side of the adaptation variable. *)
Definition F (_parameters : OrderedDict) (V w : Qc) : Result Qc :=
  a ← getitem _parameters "a";
  E_L ← getitem _parameters "E_L";
  tau_w ← getitem _parameters "tau_w";
  inv_tau_w ← div 1 tau_w;
  let F := inv_tau_w ⊗ (a ⊗ (V ⊖ E_L) ⊖ w) in
  Return (- F).

Definition default_initial_conditions (_parameters : OrderedDict) : Result OrderedDict :=
  E_L ← getitem _parameters "E_L";
  Return [("V", E_L); ("w", 0)].

(** [update(vs)]: the new content of [vs] and the lines printed. *)
Definition update (_parameters : OrderedDict) (vs : Function)
    : Result (Function * list string) :=
  spike ← getitem _parameters "spike";
  E_L ← getitem _parameters "E_L";
  b ← getitem _parameters "b";
  vs_split ← split2 vs;
  let '(v, s) := vs_split in
  let v_idx := map (λ x, bool_decide (spike < x)) v in
  v' ← where_ v_idx (λ _, E_L) v;
  s' ← where_ v_idx (λ x, x ⊕ b) s;
  let vs' := {| sub0 := v'; rest := [s'] |} in
  Return (vs', if decide (0 < length (filter (λ m : bool, m = true) v_idx))%nat
               then [" *** Spike *** "] else []).

(** The content [update] leaves in [vs.sub(1)], in closed form. *)
Definition adapt (spike b : Qc) (v s : Field) : Field :=
  zip_with (λ x y, if bool_decide (spike < x) then y ⊕ b else y) v s.

End Model.

End AdEx.

(** ** A small instance

    One degree of freedom per scalar space.  The cell model lets every
    variable grow at unit rate; the PDE solver halves the potential it reads
    and puts the end of its interval in the extracellular potential.  Its
    linear solver may give up on every interval that ends after a given
    time.  The toy sub-solvers compute with exact rationals, and the toy
    solver is run with the arithmetic that does not round. *)
Module Toy.

Definition ode_step (o : ODESolver.t) (interval : TimeInterval)
    (prev old : Function) : Outcome :=
  let h := interval.2 - interval.1 in
  {| written := {| sub0 := map (λ x, x + h) (sub0 prev);
                   rest := map (map (λ x, x + h)) (rest prev) |};
     raised := None |}.

Definition pde_step_until (limit : Qc) (p : PDESolver.t) (interval : TimeInterval)
    (v : Field) (old : Function) : Outcome :=
  if decide (limit < interval.2) then
    {| written := old;
       raised := Some (RuntimeError "linear solver did not converge") |}
  else
    {| written := {| sub0 := map (λ x, x / 2) v; rest := [[interval.2]] |};
       raised := None |}.

Definition pde_step : PDESolver.t → TimeInterval → Field → Function → Outcome :=
  pde_step_until (Qc_of_Z 1000).

Definition zero : Function := {| sub0 := [0]; rest := [[0]] |}.

Definition ode_solution_fields (o : ODESolver.t) : Function * Function := (zero, zero).

Definition pde_vur (p : PDESolver.t) : Function := zero.

Definition model : CardiacModel :=
  {| stimulus := {| cppcode := "100" |};
     applied_current := {| cppcode := "sin(2*pi*x[0])*t" |} |}.

Definition splitting_parameters (theta : Qc) (to_pde : bool) : SplittingParameters.t :=
  {| SplittingParameters.theta := theta;
     SplittingParameters.apply_stimulus_current_to_pde := to_pde |}.

Definition bidomain_parameters (theta : Qc) : BidomainParameters.t :=
  {| BidomainParameters.theta := theta; BidomainParameters.solver := "BidomainSolver" |}.

Definition single_cell_parameters : SingleCellParameters.t :=
  {| SingleCellParameters.solver := "CardiacODESolver" |}.

(** The solver [__init__] builds from these. *)
Definition solver (theta : Qc) : SplittingSolver :=
  {| _model := model;
     parameters := splitting_parameters theta false;
     pde_parameters := bidomain_parameters theta;
     ode_parameters := single_cell_parameters;
     linear_solver_parameters := LUParameters;
     ode_solver := {| ODESolver.class := CardiacODESolver;
                      ODESolver.parameters := single_cell_parameters;
                      ODESolver.I_s := Some (stimulus model) |};
     pde_solver := {| PDESolver.class := BidomainSolver;
                      PDESolver.parameters := bidomain_parameters theta;
                      PDESolver.linear_solver_parameters := LUParameters;
                      PDESolver.I_s := None;
                      PDESolver.I_a := Some (applied_current model) |};
     vs_ := zero; vs := zero; vur := zero |}.

Definition world (theta : Qc) : World := {| self := solver theta; calls := [] |}.

Definition half : Qc := Q2Qc (1 # 2).
Definition tenth : Qc := Q2Qc (1 # 10).

(** A PDE solver that lets the potential it reads grow at rate two and
    puts the end of its interval in the extracellular potential. *)
Definition pde_step_drift (p : PDESolver.t) (interval : TimeInterval)
    (v : Field) (old : Function) : Outcome :=
  let h := interval.2 - interval.1 in
  {| written := {| sub0 := map (λ x, x + h + h) v; rest := [[interval.2]] |};
     raised := None |}.

(** The correct states of the toy with [pde_step_drift], started from
    [zero] at time 0: the state variable holds the time [r] up to which the
    cell model has been integrated, the extracellular potential the time [d]
    up to which the PDE has been solved, and the potential is [r + 2 d]. *)
Definition valid_vs (r d : Qc) (f : Function) : Prop :=
  f = {| sub0 := [r + d + d]; rest := [[r]] |}.
Definition valid_vur (r d : Qc) (f : Function) : Prop :=
  f = {| sub0 := [r + d + d]; rest := [[d]] |}.

End Toy.

(** The five steps of [(0.0, 0.5)] with [dt = 0.1]. *)
Definition toy_intervals : list TimeInterval :=
  [(Q2Qc 0.0, Q2Qc 0.1); (Q2Qc 0.1, Q2Qc 0.2); (Q2Qc 0.2, Q2Qc 0.3);
   (Q2Qc 0.3, Q2Qc 0.4); (Q2Qc 0.4, Q2Qc 0.5)].

(** A function of the AdEx model with two degrees of freedom, the first one
    above the threshold of the default parameters, and what [update] makes
    of it. *)
Module AdExToy.

Definition spiking : Function :=
  {| sub0 := [Q2Qc 25; Q2Qc (-60)]; rest := [[Q2Qc 1; Q2Qc 2]] |}.

Definition after_spike : Function :=
  {| sub0 := [Q2Qc (-706 # 10); Q2Qc (-60)]; rest := [[Q2Qc (10805 # 10000); Q2Qc 2]] |}.

(** An [exp] that returns for arguments up to 709 and overflows above. *)
Definition exp_until_709 (x : Qc) : AdEx.Result Qc :=
  if decide (Q2Qc 709 < x) then AdEx.Throw AdEx.OverflowError else AdEx.Return (1 + x).

End AdExToy.

Section Solver.

(** The arithmetic of floats. *)
Variable fl : Float.Arith.

Local Notation "x ⊕ y" := (Float.add fl x y) (at level 50, left associativity).
Local Notation "x ⊖ y" := (Float.sub fl x y) (at level 50, left associativity).
Local Notation "x ⊗ y" := (Float.mul fl x y) (at level 40, left associativity).

(** The behaviour of the collaborators. *)

(** [ode_solver.solution_fields()] after construction: [(vs_, vs)]. *)
Variable ODESolver_solution_fields : ODESolver.t → Function * Function.

(** The [vur] of [pde_solver.solution_fields()] after construction. *)
Variable PDESolver_vur : PDESolver.t → Function.

(** [ode_solver.step(interval)]: reads the solver's [vs_] (and the old
    [vs]), writes [vs]. *)
Variable ODESolver_step : ODESolver.t → TimeInterval → Function → Function → Outcome.

(** [pde_solver.step(interval)]: reads [v_ = vs[0]] (and the old [vur]),
    writes [vur]. *)
Variable PDESolver_step : PDESolver.t → TimeInterval → Field → Function → Outcome.

(** *** Construction *)

Definition _create_ode_solver (model : CardiacModel)
    (parameters : SplittingParameters.t)
    (ode_parameters : SingleCellParameters.t) : Res ODESolver.t :=
  let stimulus :=
    if SplittingParameters.apply_stimulus_current_to_pde parameters
    then None
    else Some (stimulus model) in
  solver_class ←
    (if decide (SingleCellParameters.solver ode_parameters = "BasicCardiacODESolver")
     then Ok BasicCardiacODESolver
     else if decide (SingleCellParameters.solver ode_parameters = "CardiacODESolver")
     then Ok CardiacODESolver
     else Raise (UnboundLocalError "solver_class"));
  Ok {| ODESolver.class := solver_class;
        ODESolver.parameters := ode_parameters;
        ODESolver.I_s := stimulus |}.

Definition is_bidomain (name : string) : bool :=
  bool_decide (name ∈ ["BasicBidomainSolver"; "BidomainSolver"]).

Definition _create_pde_solver (model : CardiacModel)
    (parameters : SplittingParameters.t)
    (pde_parameters : BidomainParameters.t)
    (linear_solver_parameters : LinearSolverParameters) : Res PDESolver.t :=
  let applied_current := applied_current model in
  let stimulus :=
    if SplittingParameters.apply_stimulus_current_to_pde parameters
    then Some (stimulus model)
    else None in
  let name := BidomainParameters.solver pde_parameters in
  if is_bidomain name then
    PDESolver ←
      (if decide (name = "BasicBidomainSolver") then Ok BasicBidomainSolver
       else if decide (name = "BidomainSolver") then Ok BidomainSolver
       else Raise (UnboundLocalError "PDESolver"));
    Ok {| PDESolver.class := PDESolver;
          PDESolver.parameters := pde_parameters;
          PDESolver.linear_solver_parameters := linear_solver_parameters;
          PDESolver.I_s := stimulus;
          PDESolver.I_a := Some applied_current |}
  else
    PDESolver ←
      (if decide (name = "BasicMonodomainSolver") then Ok BasicMonodomainSolver
       else if decide (name = "MonodomainSolver") then Ok MonodomainSolver
       else Raise (UnboundLocalError "PDESolver"));
    Ok {| PDESolver.class := PDESolver;
          PDESolver.parameters := pde_parameters;
          PDESolver.linear_solver_parameters := linear_solver_parameters;
          PDESolver.I_s := stimulus;
          PDESolver.I_a := None |}.

(** [SplittingSolver.__init__]: the outcome and the sub-solvers
    constructed on the way, in order. *)
Definition __init__ (model : CardiacModel)
    (parameters : SplittingParameters.t)
    (pde_parameters : BidomainParameters.t)
    (ode_parameters : SingleCellParameters.t)
    (linear_solver_parameters : LinearSolverParameters)
    : Res SplittingSolver * list Call :=
  let msg := "Got two different values for theta." in
  if decide (SplittingParameters.theta parameters = BidomainParameters.theta pde_parameters)
  then
    match _create_ode_solver model parameters ode_parameters with
    | Raise e => (Raise e, [])
    | Ok ode =>
        let '(vs_, vs) := ODESolver_solution_fields ode in
        match _create_pde_solver model parameters pde_parameters
                linear_solver_parameters with
        | Raise e => (Raise e, [new_ode_solver ode])
        | Ok pde =>
            (Ok {| _model := model; parameters := parameters;
                   pde_parameters := pde_parameters;
                   ode_parameters := ode_parameters;
                   linear_solver_parameters := linear_solver_parameters;
                   ode_solver := ode; pde_solver := pde;
                   vs_ := vs_; vs := vs; vur := PDESolver_vur pde |},
             [new_ode_solver ode; new_pde_solver pde])
        end
    end
  else (Raise (AssertionError msg), []).

(** *** Sub-steps *)

(** [self.ode_solver.step(interval)] *)
Definition ode_solver_step (interval : TimeInterval) : M unit :=
  s ← get_self;
  call (ode_solver_step_call interval);;
  let o := ODESolver_step (ode_solver s) interval (vs_ s) (vs s) in
  modify (set_vs (written o));;
  match raised o with
  | Some e => raise e
  | None => mret tt
  end.

(** [self.pde_solver.step(interval)] *)
Definition pde_solver_step (interval : TimeInterval) : M unit :=
  s ← get_self;
  call (pde_solver_step_call interval);;
  let o := PDESolver_step (pde_solver s) interval (sub0 (vs s)) (vur s) in
  modify (set_vur (written o));;
  match raised o with
  | Some e => raise e
  | None => mret tt
  end.

(** [self.vs_.assign(self.vs)] *)
Definition vs__assign_vs : M unit :=
  s ← get_self;
  call vs__assign_call;;
  modify (set_vs_ (vs s)).

(** *** [merge] *)

(** The local [v] of [merge]: [self.vur.sub(0)] for the bidomain solvers,
    [self.vur] otherwise. *)
Definition merge_v (s : SplittingSolver) : Function :=
  if is_bidomain (BidomainParameters.solver (pde_parameters s))
  then scalar (sub0 (vur s))
  else vur s.

Definition merge (solution : Function) : M Function :=
  s ← get_self;
  let v := merge_v s in
  call merger_assign_call;;
  lift (FunctionAssigner_assign solution v).

(** *** [step] *)

Definition step (interval : TimeInterval) : M unit :=
  s ← get_self;
  let theta := SplittingParameters.theta (parameters s) in
  let '(t0, t1) := interval in
  let dt := t1 ⊖ t0 in
  let t := t0 ⊕ theta ⊗ dt in
  ode_solver_step (t0, t);;
  pde_solver_step (t0, t1);;
  if decide (theta = 1) then
    in_place ref_vs merge
  else
    vs__assign_vs;;
    in_place ref_vs_ merge;;
    ode_solver_step (t, t1);;
    vs__assign_vs.

(** *** [solution_fields] and [solve] *)

Definition solution_fields : Ref * Ref * Ref := (ref_vs_, ref_vs, ref_vur).

(** Calling the generator function runs nothing. *)
Definition solve (interval : TimeInterval) (dt : Qc) : Frame :=
  Unstarted interval dt.

(** The head of the [for t0, t1 in time_stepper] loop, up to the next
    [yield]. *)
Definition loop_head (time_stepper : list TimeInterval) : World → (Sent * Frame) * World :=
  λ w,
    match time_stepper with
    | [] => ((StopIteration, Finished), w)
    | iv :: later =>
        match step iv w with
        | (Ok _, w') => ((Yield iv solution_fields, AtYield later), w')
        | (Raise e, w') => ((Raised e, Finished), w')
        end
    end.

(** [next(generator)] *)
Definition next (g : Frame) : World → (Sent * Frame) * World :=
  λ w,
    match g with
    | Unstarted interval dt =>
        match TimeStepper interval dt with
        | Ok time_stepper => loop_head time_stepper w
        | Raise e => ((Raised e, Finished), w)
        end
    | AtYield time_stepper =>
        match vs__assign_vs w with
        | (Ok _, w') => loop_head time_stepper w'
        | (Raise e, w') => ((Raised e, Finished), w')
        end
    | Finished => ((StopIteration, Finished), w)
    end.

(** *** The consumer: [for (interval, fields) in solver.solve(...)] *)

(** What is read through the references of a yielded value in a world. *)
Definition view (w : World) (fields : Ref * Ref * Ref)
    : Function * Function * Function :=
  let '(a, b, c) := fields in
  (deref (self w) a, deref (self w) b, deref (self w) c).

(** How an iteration ended. *)
Inductive Ending : Type :=
  | completed
  | failed (e : Exn)
  | cut_short.

#[global] Instance Ending_eq_dec : EqDecision Ending.
Proof. solve_decision. Defined.

(** A run of the loop: the values yielded, what the loop body read through
    each of them when it was yielded, how the loop ended, and the world it
    left. *)
Record Run : Type :=
  { yielded : list (TimeInterval * (Ref * Ref * Ref));
    seen : list (TimeInterval * (Function * Function * Function));
    ending : Ending;
    final : World }.

Fixpoint for_loop (next : Frame → World → (Sent * Frame) * World)
    (fuel : nat) (g : Frame) (w : World) : Run :=
  match fuel with
  | O => {| yielded := []; seen := []; ending := cut_short; final := w |}
  | S fuel' =>
      match next g w with
      | ((Yield iv fields, g'), w') =>
          let r := for_loop next fuel' g' w' in
          {| yielded := (iv, fields) :: yielded r;
             seen := (iv, view w' fields) :: seen r;
             ending := ending r;
             final := final r |}
      | ((StopIteration, _), w') =>
          {| yielded := []; seen := []; ending := completed; final := w' |}
      | ((Raised e, _), w') =>
          {| yielded := []; seen := []; ending := failed e; final := w' |}
      end
  end.

(** The number of [next] calls after which a generator is exhausted. *)
Definition pending (g : Frame) : nat :=
  match g with
  | Unstarted interval dt =>
      match TimeStepper interval dt with
      | Ok time_stepper => S (length time_stepper)
      | Raise _ => 1
      end
  | AtYield time_stepper => S (length time_stepper)
  | Finished => 1
  end.

Definition iterate (g : Frame) (w : World) : Run :=
  for_loop next (pending g) g w.

(** The yielded values still show, in the world the loop left, what the loop
    body read through them when they were yielded. *)
Definition yielded_results_remain (r : Run) : Prop :=
  Forall2 (λ y o, (y.1, view (final r) y.2) = o) (yielded r) (seen r).

(** *** The variant of [solve] with a single assignment

    The generator the open question of the specification asks for: [step] as
    it is, with the net effect of states 3b to 3d, and no second assignment
    of [vs_] from [vs] when the generator is resumed after the [yield]. *)
Definition next_single_assign (g : Frame) : World → (Sent * Frame) * World :=
  λ w,
    match g with
    | Unstarted interval dt =>
        match TimeStepper interval dt with
        | Ok time_stepper => loop_head time_stepper w
        | Raise e => ((Raised e, Finished), w)
        end
    | AtYield time_stepper => loop_head time_stepper w
    | Finished => ((StopIteration, Finished), w)
    end.

Definition iterate_single_assign (g : Frame) (w : World) : Run :=
  for_loop next_single_assign (pending g) g w.

(** Two runs that a caller cannot tell apart: the same values yielded, the
    same functions read through them, the same ending, the same solver
    left. *)
Definition same_run (r r' : Run) : Prop :=
  yielded r = yielded r' ∧ seen r = seen r' ∧ ending r = ending r' ∧
  self (final r) = self (final r').

(** A method whose outcome and effect on the solver do not depend on the
    log of calls. *)
Definition log_blind {A : Type} (m : M A) : Prop :=
  ∀ w w2 : World, self w = self w2 →
    (m w).1 = (m w2).1 ∧ self (m w).2 = self (m w2).2.

(** What never changes after construction. *)
Definition config (s : SplittingSolver) :=
  (_model s, parameters s, pde_parameters s, ode_parameters s,
   linear_solver_parameters s, ode_solver s, pde_solver s).

Definition keeps_config {A : Type} (m : M A) : Prop :=
  ∀ w : World, config (self (m w).2) = config (self w).

(** The calls [step] makes when nothing raises. *)
Definition step_calls (theta : Qc) (interval : TimeInterval) : list Call :=
  let '(t0, t1) := interval in
  let t := t0 ⊕ theta ⊗ (t1 ⊖ t0) in
  if decide (theta = 1) then
    [ode_solver_step_call (t0, t); pde_solver_step_call (t0, t1); merger_assign_call]
  else
    [ode_solver_step_call (t0, t); pde_solver_step_call (t0, t1); vs__assign_call;
     merger_assign_call; ode_solver_step_call (t, t1); vs__assign_call].

(** The layout under which [merge] cannot fail: a bidomain solver, or a
    [vur] on a scalar space. *)
Definition merge_layout_ok (s : SplittingSolver) : Prop :=
  is_bidomain (BidomainParameters.solver (pde_parameters s)) = true ∨ rest (vur s) = [].

(** The world a call of [ode_solver.step] leaves, whether it raises or not. *)
Definition after_ode (interval : TimeInterval) (w : World) : World :=
  let s := self w in
  {| self := set_vs (written (ODESolver_step (ode_solver s) interval (vs_ s) (vs s))) s;
     calls := calls w ++ [ode_solver_step_call interval] |}.

(** The world a call of [pde_solver.step] leaves, whether it raises or not. *)
Definition after_pde (interval : TimeInterval) (w : World) : World :=
  let s := self w in
  {| self := set_vur (written (PDESolver_step (pde_solver s) interval (sub0 (vs s)) (vur s))) s;
     calls := calls w ++ [pde_solver_step_call interval] |}.

Definition after_assign (w : World) : World :=
  {| self := set_vs_ (vs (self w)) (self w); calls := calls w ++ [vs__assign_call] |}.

(** How a [step] over [interval] that raises [e] in the world [w] has
    gone: which sub-step raised, the sub-steps before it having returned, and
    the calls made, of which the one that raised is the last. *)
Definition step_failure (w : World) (interval : TimeInterval) (e : Exn)
    (cs : list Call) : Prop :=
  let s := self w in
  let theta := SplittingParameters.theta (parameters s) in
  let t0 := interval.1 in
  let t1 := interval.2 in
  let t := t0 ⊕ theta ⊗ (t1 ⊖ t0) in
  let tentative := ODESolver_step (ode_solver s) (t0, t) (vs_ s) (vs s) in
  let pde := PDESolver_step (pde_solver s) (t0, t1) (sub0 (written tentative)) (vur s) in
  let merged := {| sub0 := sub0 (written pde); rest := rest (written tentative) |} in
  let corrective := ODESolver_step (ode_solver s) (t, t1) merged (written tentative) in
  (raised tentative = Some e ∧
   cs = [ode_solver_step_call (t0, t)]) ∨
  (raised tentative = None ∧ raised pde = Some e ∧
   cs = [ode_solver_step_call (t0, t); pde_solver_step_call (t0, t1)]) ∨
  (raised tentative = None ∧ raised pde = None ∧
   ¬ merge_layout_ok (set_vur (written pde) s) ∧
   e = RuntimeError "FunctionAssigner: source is not in the assigning space" ∧
   cs = if decide (theta = 1)
        then [ode_solver_step_call (t0, t); pde_solver_step_call (t0, t1);
              merger_assign_call]
        else [ode_solver_step_call (t0, t); pde_solver_step_call (t0, t1);
              vs__assign_call; merger_assign_call]) ∨
  (raised tentative = None ∧ raised pde = None ∧
   merge_layout_ok (set_vur (written pde) s) ∧ theta ≠ 1 ∧
   raised corrective = Some e ∧
   cs = [ode_solver_step_call (t0, t); pde_solver_step_call (t0, t1);
         vs__assign_call; merger_assign_call; ode_solver_step_call (t, t1)]).

(** *** The loop, from the head of the [for]

    The run of [for ... in solver.solve(...)] from the head of the loop of
    [solve] over the intervals the time stepper has still to produce: [step],
    [yield], the assignment on being resumed, and so on. *)
Fixpoint run_from_head (l : list TimeInterval) (w : World) : Run :=
  match l with
  | [] => {| yielded := []; seen := []; ending := completed; final := w |}
  | iv :: later =>
      match step iv w with
      | (Ok _, w') =>
          let r := run_from_head later (after_assign w') in
          {| yielded := (iv, solution_fields) :: yielded r;
             seen := (iv, view w' solution_fields) :: seen r;
             ending := ending r;
             final := final r |}
      | (Raise e, w') =>
          {| yielded := []; seen := []; ending := failed e; final := w' |}
      end
  end.

(** The intervals of the calls of [pde_solver.step] in a log. *)
Definition pde_intervals (cs : list Call) : list TimeInterval :=
  omap (λ c, match c with pde_solver_step_call iv => Some iv | _ => None end) cs.

(** The intervals of the calls of [ode_solver.step] in a log. *)
Definition ode_intervals (cs : list Call) : list TimeInterval :=
  omap (λ c, match c with ode_solver_step_call iv => Some iv | _ => None end) cs.

(** Each previous state read at a [yield] is the current state read at the
    [yield] before it, starting from [prev]. *)
Fixpoint chained (prev : Function)
    (seen : list (TimeInterval * (Function * Function * Function))) : Prop :=
  match seen with
  | [] => True
  | (_, (p, c, _)) :: later => p = prev ∧ chained c later
  end.

(** The current state read at the last [yield], or [prev] if there was
    none. *)
Definition last_current (prev : Function)
    (seen : list (TimeInterval * (Function * Function * Function))) : Function :=
  foldl (λ _ o, o.2.1.2) prev seen.

(** The local [t] of [step]: the point at which the interval is split. *)
Definition split_point (theta : Qc) (interval : TimeInterval) : Qc :=
  interval.1 ⊕ theta ⊗ (interval.2 ⊖ interval.1).

(** The intervals over which one [step] calls the ODE solver. *)
Definition ode_sub_intervals (theta : Qc) (interval : TimeInterval) : list TimeInterval :=
  if decide (theta = 1) then [(interval.1, split_point theta interval)]
  else [(interval.1, split_point theta interval); (split_point theta interval, interval.2)].

(** *** The contract of the collaborators

    [step] documents an invariant in terms of a "correct state" of the
    functions.  What a correct state is belongs to the sub-solvers.  In the
    splitting scheme a state is correct with respect to two times: the time
    [r] up to which the cell model has been integrated, and the time [d] up
    to which the PDE has been solved.  [valid_vs r d f] says that [f] is a
    correct [vs] (or [vs_]) for these, [valid_vur r d f] that [f] is a correct
    [vur]; the state is correct at [t] when both times are [t].

    The comments of [step] spell out what it relies on:
    - an ODE step over [(a, b)] assumes that [vs_] is in the correct state,
      and gives a [vs] for which the cell model has been integrated up to [b]
      (the PDE is where it was);
    - a PDE step over [(t0, t1)] assumes that the [vs] whose potential it
      reads is in the correct state: the cell model integrated up to the
      splitting point of the PDE solver's own [theta], the PDE solved up to
      [t0]; it gives a [vur] for which the PDE is solved up to [t1];
    - merging the potential of such a [vur] into a function whose other
      components are in the correct state provides that function in its
      correct state, the PDE now solved up to [t1].  Before the merge, the
      function holds the potential the PDE step started from. *)
Record SplittingContract (valid_vs valid_vur : Qc → Qc → Function → Prop) : Prop :=
  { ode_contract : ∀ (o : ODESolver.t) (a b d : Qc) (prev old : Function),
      valid_vs a d prev →
      raised (ODESolver_step o (a, b) prev old) = None →
      valid_vs b d (written (ODESolver_step o (a, b) prev old));
    pde_contract : ∀ (p : PDESolver.t) (t0 t1 : Qc) (tentative old : Function),
      let r := split_point (BidomainParameters.theta (PDESolver.parameters p)) (t0, t1) in
      valid_vs r t0 tentative →
      raised (PDESolver_step p (t0, t1) (sub0 tentative) old) = None →
      valid_vur r t1 (written (PDESolver_step p (t0, t1) (sub0 tentative) old));
    merge_contract : ∀ (r t0 t1 : Qc) (f pde : Function),
      valid_vs r t0 f → valid_vur r t1 pde →
      valid_vs r t1 {| sub0 := sub0 pde; rest := rest f |} }.

(** ** Properties *)

(** *** Arithmetic on [Qc] *)

Lemma Qc_eq_Qeq (x y : Qc) : x = y ↔ (this x == this y)%Q.
Proof. split; [by intros ->|apply Qc_is_canon]. Qed.

(** Linear goals over [Qc] are sent to [Q], where [lra] decides them. *)
Ltac qc_to_q :=
  repeat match goal with
  | H : @eq Qc _ _ |- _ => apply Qc_eq_Qeq in H
  | H : ¬ @eq Qc _ _ |- _ => rewrite Qc_eq_Qeq in H
  | |- @eq Qc _ _ => apply Qc_eq_Qeq
  end;
  unfold Qcle, Qclt in *;
  repeat (progress (unfold Qcplus, Qcminus, Qcmult, Qcopp, Q2Qc in *; cbn [this] in *);
          repeat match goal with
          | H : context [Qred ?q] |- _ => rewrite (Qred_correct q) in H
          | |- context [Qred ?q] => rewrite (Qred_correct q)
          end).

Ltac qc_lra := qc_to_q; lra.

(** *** The time stepper *)

Lemma time_steps_at_end (n : nat) (T1 dt : Qc) : time_steps n T1 T1 dt = [].
Proof.
  destruct n as [|n]; [done|]. simpl.
  destruct (decide (T1 < T1)) as [H|_]; [|done]. exfalso. qc_lra.
Qed.

Lemma time_steps_tiles (T1 dt : Qc) (n : nat) :
  0 < dt →
  ∀ t0 : Qc, t0 < T1 → T1 - t0 ≤ Qc_of_Z (Z.of_nat n) * dt →
  tiles dt t0 T1 (time_steps n t0 T1 dt).
Proof.
  intros Hdt. induction n as [|n IH]; intros t0 Hlt Hfuel.
  - exfalso.
    assert (E : Qc_of_Z (Z.of_nat 0) = 0) by (by apply Qc_is_canon).
    rewrite E, Qcmult_0_l in Hfuel. qc_lra.
  - simpl. rewrite decide_True by done.
    destruct (decide (t0 + dt < T1)) as [Hin|Hout].
    + apply tiles_step; [qc_lra|qc_lra|done|].
      apply IH; [done|].
      rewrite Nat2Z.inj_succ, <- Z.add_1_r, Z2Qc_inj_add, Z2Qc_inj_1 in Hfuel.
      qc_lra.
    + rewrite time_steps_at_end. apply tiles_last; [done|].
      apply Qcnot_lt_le in Hout. qc_lra.
Qed.

Lemma num_steps_enough (T0 T1 dt : Qc) :
  0 < dt → T0 < T1 → T1 - T0 ≤ Qc_of_Z (Z.of_nat (num_steps T0 T1 dt)) * dt.
Proof.
  intros Hdt Hlt. unfold num_steps.
  set (x := (T1 - T0) / dt).
  assert (Hx : T1 - T0 = x * dt).
  { unfold x. field. intros ->. by apply Qclt_not_eq in Hdt. }
  rewrite Hx. apply Qcmult_le_compat_r; [|by apply Qclt_le_weak].
  apply Qcle_trans with (Qc_of_Z (Qceiling x)).
  - unfold Qcle. cbn [this Qc_of_Z]. apply Qle_ceiling.
  - apply (proj1 (Z2Qc_inj_le (Qceiling x) (Z.of_nat (Z.to_nat (Qceiling x))))). lia.
Qed.

Lemma tiles_head (dt a b : Qc) (l : list TimeInterval) :
  tiles dt a b l → ∃ m, head l = Some (a, m).
Proof. destruct 1; eauto. Qed.

Lemma tiles_last_end (dt a b : Qc) (l : list TimeInterval) :
  tiles dt a b l → ∃ m, last l = Some (m, b).
Proof.
  induction 1 as [a b ? ?|a m b l ? ? ? Ht [m' IH]]; [by exists a|].
  exists m'. destruct Ht; simpl in *; done.
Qed.

Lemma tiles_contiguous (dt a b : Qc) (l : list TimeInterval) :
  tiles dt a b l →
  ∀ (i : nat) (iv iv' : TimeInterval),
    l !! i = Some iv → l !! S i = Some iv' → iv.2 = iv'.1.
Proof.
  induction 1 as [a b ? ?|a m b l ? ? ? Ht IH]; intros i iv iv' Hi Hi'.
  - by destruct i.
  - destruct i as [|i].
    + simpl in Hi. injection Hi as <-.
      destruct (tiles_head _ _ _ _ Ht) as [m' Hh].
      destruct l as [|x l]; [done|]. simpl in *. by simplify_eq.
    + by apply (IH i).
Qed.

Lemma tiles_each (dt a b : Qc) (l : list TimeInterval) :
  tiles dt a b l →
  ∀ iv : TimeInterval, iv ∈ l →
    iv.1 < iv.2 ∧ iv.2 - iv.1 ≤ dt ∧ a ≤ iv.1 ∧ iv.2 ≤ b.
Proof.
  induction 1 as [a b ? ?|a m b l ? ? ? Ht IH]; intros iv Hin.
  - apply list_elem_of_singleton in Hin as ->. simpl.
    split_and!; [done|done|apply Qcle_refl|apply Qcle_refl].
  - apply elem_of_cons in Hin as [->|Hin].
    + simpl. split_and!; [done|done|apply Qcle_refl|by apply Qclt_le_weak].
    + destruct (IH iv Hin) as (? & ? & ? & ?). split_and!; [done|done| |done].
      apply Qcle_trans with m; [by apply Qclt_le_weak|done].
Qed.

Lemma TimeStepper_tiles (T0 T1 dt : Qc) :
  0 < dt → T0 < T1 →
  ∃ l, TimeStepper (T0, T1) dt = Ok l ∧ tiles dt T0 T1 l.
Proof.
  intros Hdt Hlt. unfold TimeStepper.
  rewrite decide_False by (by apply Qclt_not_le).
  rewrite decide_False by (by apply Qclt_not_le).
  eexists. split; [done|].
  apply time_steps_tiles; [done|done|]. by apply num_steps_enough.
Qed.

(** *** The monad *)

Lemma bind_ok {A B : Type} (m : M A) (k : A → M B) (w w' : World) (a : A) :
  m w = (Ok a, w') → (m ≫= k) w = k a w'.
Proof. intros H. unfold mbind, M_bind. by rewrite H. Qed.

(** *** [merge] *)

Lemma sub_0 (f : Function) : sub f 0 = Some (scalar (sub0 f)).
Proof. reflexivity. Qed.

Lemma sub_S (f : Function) (i : nat) : sub f (S i) = scalar <$> rest f !! i.
Proof. reflexivity. Qed.

Lemma merge_unfold (solution : Function) (w : World) :
  merge solution w =
    (FunctionAssigner_assign solution (merge_v (self w)),
     {| self := self w; calls := calls w ++ [merger_assign_call] |}).
Proof. reflexivity. Qed.

Lemma assign_ok_inv (receiver v f : Function) :
  FunctionAssigner_assign receiver v = Ok f →
  rest v = [] ∧ f = {| sub0 := sub0 v; rest := rest receiver |}.
Proof.
  unfold FunctionAssigner_assign. destruct (rest v) eqn:E; [|done].
  intros [= <-]. done.
Qed.

Lemma assign_raise_inv (receiver v : Function) (e : Exn) :
  FunctionAssigner_assign receiver v = Raise e →
  rest v ≠ [] ∧ e = RuntimeError "FunctionAssigner: source is not in the assigning space".
Proof.
  unfold FunctionAssigner_assign. destruct (rest v); [done|]. by intros [= <-].
Qed.

Lemma assign_scalar (receiver v : Function) :
  rest v = [] →
  FunctionAssigner_assign receiver v = Ok {| sub0 := sub0 v; rest := rest receiver |}.
Proof. intros E. unfold FunctionAssigner_assign. by rewrite E. Qed.

Lemma scalar_eta (v : Function) : rest v = [] → scalar (sub0 v) = v.
Proof. destruct v as [x r]. simpl. by intros ->. Qed.

Lemma merge_v_sub0 (s : SplittingSolver) : sub0 (merge_v s) = sub0 (vur s).
Proof. unfold merge_v. by destruct (is_bidomain _). Qed.

Lemma in_place_merge_unfold (r : Ref) (w : World) :
  in_place r merge w =
    let w' := {| self := self w; calls := calls w ++ [merger_assign_call] |} in
    match FunctionAssigner_assign (deref (self w) r) (merge_v (self w)) with
    | Ok f => (Ok tt, {| self := store r f (self w); calls := calls w' |})
    | Raise e => (Raise e, w')
    end.
Proof.
  unfold in_place, mbind, M_bind, get_self, modify. rewrite merge_unfold.
  by destruct (FunctionAssigner_assign _ _).
Qed.

Lemma merge_v_scalar (s : SplittingSolver) :
  merge_layout_ok s → rest (merge_v s) = [].
Proof. unfold merge_layout_ok, merge_v. intros [-> | H]; [done|]. by destruct (is_bidomain _). Qed.

(** C3. [merge(target)] overwrites component 0 of the target with the
    transmembrane potential of the PDE solver ([vur.sub(0)] for the bidomain
    solvers, [vur] itself otherwise) and leaves every other component of the
    target as it was; the functions of the solver are not touched by the
    call itself.  With a bidomain solver, or a scalar [vur], the call
    succeeds; when the assigner refuses the source, nothing is written. *)
Theorem merge_overwrites_only_sub_0 (target : Function) (w : World) :
  (∀ target' w', merge target w = (Ok target', w') →
     sub target' 0 = Some (merge_v (self w)) ∧
     sub0 target' = sub0 (vur (self w)) ∧
     (∀ i : nat, i ≠ 0%nat → sub target' i = sub target i) ∧
     rest target' = rest target ∧
     self w' = self w) ∧
  (merge_layout_ok (self w) → ∃ target', (merge target w).1 = Ok target') ∧
  (∀ e w', merge target w = (Raise e, w') → self w' = self w).
Proof.
  rewrite merge_unfold. split; [|split].
  - intros target' w' [= Hf <-].
    apply assign_ok_inv in Hf as [Hv ->]. simpl.
    split; [|split; [|split; [|done]]].
    + rewrite sub_0. simpl. f_equal. by apply scalar_eta.
    + apply merge_v_sub0.
    + intros [|i] Hi; [done|]. by rewrite !sub_S.
  - intros Hl. eexists. simpl. apply assign_scalar. by apply merge_v_scalar.
  - by intros e w' [= _ <-].
Qed.

(** C4. For a fixed [vur], merging twice is merging once: the second
    call returns the target the first call left, and through a reference
    the second [merge] leaves the solver as the first one left it. *)
Theorem merge_idempotent (w : World) :
  (∀ target : Function,
     ((merge target ≫= merge) w).1 = (merge target w).1) ∧
  (∀ (target target' : Function) (w' : World),
     merge target w = (Ok target', w') → (merge target' w').1 = Ok target') ∧
  (∀ r : Ref,
     self ((in_place r merge ;; in_place r merge) w).2 = self (in_place r merge w).2).
Proof.
  assert (Hidem : ∀ (target target' : Function) (s : SplittingSolver),
    FunctionAssigner_assign target (merge_v s) = Ok target' →
    FunctionAssigner_assign target' (merge_v s) = Ok target').
  { intros target target' s Hf. apply assign_ok_inv in Hf as [Hv ->].
    by rewrite (assign_scalar _ _ Hv). }
  split; [|split].
  - intros target. unfold mbind, M_bind. rewrite merge_unfold.
    destruct (FunctionAssigner_assign target (merge_v (self w))) as [f|e] eqn:Hf; [|done].
    rewrite merge_unfold. simpl. eauto.
  - intros target target' w'. rewrite !merge_unfold. intros [= Hf <-]. simpl. eauto.
  - intros r. unfold mbind at 1. unfold M_bind. rewrite in_place_merge_unfold.
    destruct (FunctionAssigner_assign (deref (self w) r) (merge_v (self w)))
      as [f|e] eqn:Hf; [|done].
    cbv beta iota zeta. rewrite in_place_merge_unfold. cbn [self calls].
    apply assign_ok_inv in Hf as [Hv ->].
    assert (Hm : merge_v (store r {| sub0 := sub0 (merge_v (self w)); rest := rest (deref (self w) r) |} (self w))
                 = merge_v (self w)).
    { unfold merge_v. destruct r; simpl; try done.
      destruct (is_bidomain _) eqn:Hb; [done|].
      unfold merge_v in Hv. rewrite Hb in Hv.
      destruct (vur (self w)) as [x l]. simpl in *. by subst. }
    rewrite Hm. rewrite (assign_scalar _ _ Hv). cbn [snd self].
    destruct r; reflexivity.
Qed.

(** *** Sub-steps *)

Lemma ode_solver_step_unfold (interval : TimeInterval) (w : World) :
  ode_solver_step interval w =
    (match raised (ODESolver_step (ode_solver (self w)) interval (vs_ (self w)) (vs (self w))) with
     | Some e => Raise e
     | None => Ok tt
     end, after_ode interval w).
Proof.
  unfold ode_solver_step, after_ode, mbind, M_bind, get_self, call, modify, raise, mret, M_ret.
  cbv beta iota zeta. by destruct (raised _).
Qed.

Lemma pde_solver_step_unfold (interval : TimeInterval) (w : World) :
  pde_solver_step interval w =
    (match raised (PDESolver_step (pde_solver (self w)) interval (sub0 (vs (self w))) (vur (self w))) with
     | Some e => Raise e
     | None => Ok tt
     end, after_pde interval w).
Proof.
  unfold pde_solver_step, after_pde, mbind, M_bind, get_self, call, modify, raise, mret, M_ret.
  cbv beta iota zeta. by destruct (raised _).
Qed.

Lemma vs__assign_vs_unfold (w : World) : vs__assign_vs w = (Ok tt, after_assign w).
Proof. reflexivity. Qed.

Lemma step_unfold (t0 t1 : Qc) (w : World) :
  step (t0, t1) w =
    let theta := SplittingParameters.theta (parameters (self w)) in
    let t := t0 ⊕ theta ⊗ (t1 ⊖ t0) in
    (ode_solver_step (t0, t);;
     pde_solver_step (t0, t1);;
     if decide (theta = 1) then in_place ref_vs merge
     else vs__assign_vs;; in_place ref_vs_ merge;; ode_solver_step (t, t1);; vs__assign_vs) w.
Proof. reflexivity. Qed.

(** The first two sub-steps, when neither raises. *)
Lemma step_first_half (w : World) (t0 t1 : Qc) (k : M unit) :
  let s := self w in
  let t := t0 ⊕ SplittingParameters.theta (parameters s) ⊗ (t1 ⊖ t0) in
  let tentative := ODESolver_step (ode_solver s) (t0, t) (vs_ s) (vs s) in
  let pde := PDESolver_step (pde_solver s) (t0, t1) (sub0 (written tentative)) (vur s) in
  raised tentative = None →
  raised pde = None →
  (ode_solver_step (t0, t);; pde_solver_step (t0, t1);; k) w
  = k (after_pde (t0, t1) (after_ode (t0, t) w)).
Proof.
  intros s t tentative pde Hode Hpde.
  assert (H1 : ode_solver_step (t0, t) w = (Ok tt, after_ode (t0, t) w)).
  { rewrite ode_solver_step_unfold. fold s. fold tentative. by rewrite Hode. }
  assert (H2 : pde_solver_step (t0, t1) (after_ode (t0, t) w)
               = (Ok tt, after_pde (t0, t1) (after_ode (t0, t) w))).
  { rewrite pde_solver_step_unfold. cbn [after_ode self set_vs pde_solver vs vur].
    fold s. fold tentative. fold pde. by rewrite Hpde. }
  by rewrite (bind_ok _ _ _ _ _ H1), (bind_ok _ _ _ _ _ H2).
Qed.

(** First-order splitting: the merge into [vs] ends the step. *)
Lemma step_godunov (w : World) (t0 t1 : Qc) :
  let s := self w in
  let theta := SplittingParameters.theta (parameters s) in
  let t := t0 ⊕ theta ⊗ (t1 ⊖ t0) in
  let tentative := ODESolver_step (ode_solver s) (t0, t) (vs_ s) (vs s) in
  let pde := PDESolver_step (pde_solver s) (t0, t1) (sub0 (written tentative)) (vur s) in
  let merged := {| sub0 := sub0 (written pde); rest := rest (written tentative) |} in
  raised tentative = None →
  raised pde = None →
  merge_layout_ok (set_vur (written pde) s) →
  theta = 1 →
  step (t0, t1) w =
    (Ok tt,
     {| self := set_vs merged (set_vur (written pde) s);
        calls := calls w ++ [ode_solver_step_call (t0, t);
                             pde_solver_step_call (t0, t1);
                             merger_assign_call] |}).
Proof.
  intros s theta t tentative pde merged Hode Hpde Hlayout Htheta.
  rewrite step_unfold. cbv zeta. fold s. fold theta. fold t.
  rewrite (step_first_half w t0 t1 _ Hode Hpde). fold s. fold theta. fold t.
  rewrite decide_True by done.
  rewrite in_place_merge_unfold. cbv zeta.
  rewrite assign_scalar by (by apply merge_v_scalar).
  rewrite merge_v_sub0.
  cbn [after_pde after_ode self calls deref store]. rewrite <- !app_assoc. reflexivity.
Qed.

(** Second-order splitting: the corrective ODE step follows the merge into
    [vs_]. *)
Lemma step_strang (w : World) (t0 t1 : Qc) :
  let s := self w in
  let theta := SplittingParameters.theta (parameters s) in
  let t := t0 ⊕ theta ⊗ (t1 ⊖ t0) in
  let tentative := ODESolver_step (ode_solver s) (t0, t) (vs_ s) (vs s) in
  let pde := PDESolver_step (pde_solver s) (t0, t1) (sub0 (written tentative)) (vur s) in
  let merged := {| sub0 := sub0 (written pde); rest := rest (written tentative) |} in
  let corrective := ODESolver_step (ode_solver s) (t, t1) merged (written tentative) in
  raised tentative = None →
  raised pde = None →
  merge_layout_ok (set_vur (written pde) s) →
  theta ≠ 1 →
  raised corrective = None →
  step (t0, t1) w =
    (Ok tt,
     {| self := set_vs_ (written corrective)
                  (set_vs (written corrective) (set_vur (written pde) s));
        calls := calls w ++ [ode_solver_step_call (t0, t);
                             pde_solver_step_call (t0, t1);
                             vs__assign_call;
                             merger_assign_call;
                             ode_solver_step_call (t, t1);
                             vs__assign_call] |}).
Proof.
  intros s theta t tentative pde merged corrective Hode Hpde Hlayout Htheta Hcorr.
  rewrite step_unfold. cbv zeta. fold s. fold theta. fold t.
  rewrite (step_first_half w t0 t1 _ Hode Hpde). fold s. fold theta. fold t.
  rewrite decide_False by done.
  rewrite (bind_ok _ _ _ _ _ (vs__assign_vs_unfold _)).
  set (w3 := after_assign (after_pde (t0, t1) (after_ode (t0, t) w))).
  assert (H4 : in_place ref_vs_ merge w3 =
               (Ok tt, {| self := set_vs_ merged (self w3);
                          calls := calls w3 ++ [merger_assign_call] |})).
  { rewrite in_place_merge_unfold. cbv zeta.
    assert (Hm : merge_v (self w3) = merge_v (set_vur (written pde) s)) by done.
    rewrite Hm, assign_scalar by (by apply merge_v_scalar).
    rewrite merge_v_sub0. reflexivity. }
  rewrite (bind_ok _ _ _ _ _ H4).
  set (w4 := {| self := set_vs_ merged (self w3); calls := calls w3 ++ [merger_assign_call] |}).
  assert (H5 : ode_solver_step (t, t1) w4 = (Ok tt, after_ode (t, t1) w4)).
  { rewrite ode_solver_step_unfold.
    change (ODESolver_step (ode_solver (self w4)) (t, t1) (vs_ (self w4)) (vs (self w4)))
      with corrective.
    by rewrite Hcorr. }
  rewrite (bind_ok _ _ _ _ _ H5), vs__assign_vs_unfold.
  unfold after_assign, after_ode, w4, w3, after_assign, after_pde, after_ode.
  cbn [self calls set_vs set_vs_ set_vur vs vs_ vur ode_solver pde_solver].
  rewrite <- !app_assoc. reflexivity.
Qed.

(** C1. One call of [step] on [(t0, t1)], with [t = t0 + theta*(t1 - t0)]
    as the floats give it, when no sub-step raises:
    - the ODE solver steps over [(t0, t)], reading [vs_] and writing the
      tentative [vs];
    - the PDE solver steps over [(t0, t1)], reading component 0 of the
      tentative [vs] and writing [vur];
    - if [theta = 1], component 0 of [vur] is merged into [vs] (the other
      components of the tentative [vs] stay) and the step is over: [vs_] is
      as it was on entry;
    - otherwise [vs_] is assigned from [vs], component 0 of [vur] is merged
      into [vs_], the ODE solver steps over [(t, t1)] reading the merged
      [vs_] and writing the final [vs], and [vs_] is assigned from [vs]
      again.
    The collaborators are called in exactly this order and no other call is
    made. *)
Theorem step_sequence (w : World) (t0 t1 : Qc) :
  let s := self w in
  let theta := SplittingParameters.theta (parameters s) in
  let t := t0 ⊕ theta ⊗ (t1 ⊖ t0) in
  let tentative := ODESolver_step (ode_solver s) (t0, t) (vs_ s) (vs s) in
  let pde := PDESolver_step (pde_solver s) (t0, t1) (sub0 (written tentative)) (vur s) in
  let merged := {| sub0 := sub0 (written pde); rest := rest (written tentative) |} in
  let corrective := ODESolver_step (ode_solver s) (t, t1) merged (written tentative) in
  raised tentative = None →
  raised pde = None →
  merge_layout_ok (set_vur (written pde) s) →
  (theta = 1 →
     step (t0, t1) w =
       (Ok tt,
        {| self := set_vs merged (set_vur (written pde) s);
           calls := calls w ++ [ode_solver_step_call (t0, t);
                                pde_solver_step_call (t0, t1);
                                merger_assign_call] |})) ∧
  (theta ≠ 1 → raised corrective = None →
     step (t0, t1) w =
       (Ok tt,
        {| self := set_vs_ (written corrective)
                     (set_vs (written corrective) (set_vur (written pde) s));
           calls := calls w ++ [ode_solver_step_call (t0, t);
                                pde_solver_step_call (t0, t1);
                                vs__assign_call;
                                merger_assign_call;
                                ode_solver_step_call (t, t1);
                                vs__assign_call] |})).
Proof.
  intros s theta t tentative pde merged corrective Hode Hpde Hlayout. split.
  - intros Htheta. by apply step_godunov.
  - intros Htheta Hcorr. by apply step_strang.
Qed.

Lemma merge_layout_ok_iff (s : SplittingSolver) :
  merge_layout_ok s ↔ rest (merge_v s) = [].
Proof.
  split; [apply merge_v_scalar|].
  unfold merge_layout_ok, merge_v. destruct (is_bidomain _); auto.
Qed.

(** A [step] that returns has seen every sub-step it made return. *)
Lemma step_ok_inv (w w' : World) (t0 t1 : Qc) :
  let s := self w in
  let theta := SplittingParameters.theta (parameters s) in
  let t := t0 ⊕ theta ⊗ (t1 ⊖ t0) in
  let tentative := ODESolver_step (ode_solver s) (t0, t) (vs_ s) (vs s) in
  let pde := PDESolver_step (pde_solver s) (t0, t1) (sub0 (written tentative)) (vur s) in
  let merged := {| sub0 := sub0 (written pde); rest := rest (written tentative) |} in
  let corrective := ODESolver_step (ode_solver s) (t, t1) merged (written tentative) in
  step (t0, t1) w = (Ok tt, w') →
  raised tentative = None ∧ raised pde = None ∧
  merge_layout_ok (set_vur (written pde) s) ∧
  (theta ≠ 1 → raised corrective = None).
Proof.
  intros s theta t tentative pde merged corrective.
  rewrite step_unfold. cbv zeta. fold s. fold theta. fold t.
  unfold mbind at 1. unfold M_bind. rewrite ode_solver_step_unfold.
  fold s. fold tentative.
  destruct (raised tentative) as [e|] eqn:Hode; [done|].
  unfold mbind at 1. unfold M_bind. rewrite pde_solver_step_unfold.
  cbn [after_ode self set_vs pde_solver vs vur]. fold s. fold tentative. fold pde.
  destruct (raised pde) as [e|] eqn:Hpde; [done|].
  set (w2 := after_pde (t0, t1) (after_ode (t0, t) w)).
  assert (Hl : merge_layout_ok (self w2) ↔ merge_layout_ok (set_vur (written pde) s)) by done.
  assert (Hv0 : sub0 (merge_v (self w2)) = sub0 (written pde)) by (by rewrite merge_v_sub0).
  destruct (decide (theta = 1)) as [Htheta|Htheta].
  - rewrite in_place_merge_unfold. cbv zeta.
    destruct (FunctionAssigner_assign _ _) as [f|e] eqn:Hf; [|done].
    apply assign_ok_inv in Hf as [Hv _]. intros _.
    split_and!; try done. apply Hl. by apply merge_layout_ok_iff.
  - rewrite (bind_ok _ _ _ _ _ (vs__assign_vs_unfold _)).
    set (w3 := after_assign w2).
    unfold mbind at 1. unfold M_bind. rewrite in_place_merge_unfold. cbv zeta.
    assert (Hm : merge_v (self w3) = merge_v (self w2)) by done.
    rewrite Hm.
    destruct (FunctionAssigner_assign _ _) as [f|e] eqn:Hf; [|done].
    apply assign_ok_inv in Hf as [Hv ->]. rewrite Hv0.
    unfold mbind at 1. unfold M_bind. rewrite ode_solver_step_unfold.
    cbn [self store set_vs_ ode_solver vs_ vs].
    change (ODESolver_step _ (t, t1) _ _) with corrective.
    destruct (raised corrective) as [e|] eqn:Hcorr; [done|]. intros _.
    split_and!; try done. apply Hl. by apply merge_layout_ok_iff.
Qed.

(** The invariant of [step] for collaborators that meet their contract.
    With [theta = 1] the ODE solver has been stepped up to the [t] that
    [step] computed, which is [t1] if that computation is exact. *)
Lemma step_invariant_contract (valid_vs valid_vur : Qc → Qc → Function → Prop)
    (w w' : World) (t0 t1 : Qc) :
  let theta := SplittingParameters.theta (parameters (self w)) in
  let t := split_point theta (t0, t1) in
  SplittingContract valid_vs valid_vur →
  BidomainParameters.theta (PDESolver.parameters (pde_solver (self w))) = theta →
  valid_vs t0 t0 (vs_ (self w)) →
  step (t0, t1) w = (Ok tt, w') →
  valid_vur t t1 (vur (self w')) ∧
  (theta ≠ 1 → valid_vs t1 t1 (vs (self w'))) ∧
  (theta = 1 →
     valid_vs t t1 (vs (self w')) ∧
     (t = t1 → valid_vs t1 t1 (vs (self w'))) ∧
     sub0 (vur (self w')) = sub0 (vs (self w'))).
Proof.
  intros theta t. subst theta t. unfold split_point. cbn [fst snd].
  intros [Hode Hpde Hmerge] Htheta Hprev Hstep.
  pose proof (step_ok_inv w w' t0 t1 Hstep) as (H1 & H2 & Hl & H3).
  pose proof (step_godunov w t0 t1 H1 H2 Hl) as HG.
  pose proof (step_strang w t0 t1 H1 H2 Hl) as HS.
  set (s := self w) in *.
  set (theta := SplittingParameters.theta (parameters s)) in *.
  set (t := t0 ⊕ theta ⊗ (t1 ⊖ t0)) in *.
  set (tentative := ODESolver_step (ode_solver s) (t0, t) (vs_ s) (vs s)) in *.
  set (pde := PDESolver_step (pde_solver s) (t0, t1) (sub0 (written tentative)) (vur s)) in *.
  assert (Vt : valid_vs t t0 (written tentative)) by (by apply Hode).
  assert (Vp : valid_vur t t1 (written pde)).
  { pose proof (Hpde (pde_solver s) t0 t1 (written tentative) (vur s)) as H.
    cbv zeta in H. unfold split_point in H. cbn [fst snd] in H.
    rewrite Htheta in H. by apply H. }
  assert (Vm : valid_vs t t1 {| sub0 := sub0 (written pde); rest := rest (written tentative) |}).
  { by apply Hmerge with t0. }
  destruct (decide (theta = 1)) as [E|E].
  - rewrite (HG E) in Hstep. injection Hstep as <-. cbn [self set_vs vs vur].
    split_and!; [done|done|]. intros _. split_and!; [done| |done].
    intros Et. rewrite Et in Vm. exact Vm.
  - rewrite (HS E (H3 E)) in Hstep. injection Hstep as <-.
    cbn [self set_vs set_vs_ set_vur vs vur].
    split_and!; [done| |done].
    intros _. apply Hode; [done|by apply H3].
Qed.

(** *** Methods do not read the log, and keep the configuration *)

Lemma log_blind_bind {A B : Type} (m : M A) (k : A → M B) :
  log_blind m → (∀ a, log_blind (k a)) → log_blind (m ≫= k).
Proof.
  intros Hm Hk w w2 Hw. unfold mbind, M_bind.
  destruct (Hm w w2 Hw) as [H1 H2].
  destruct (m w) as [[a|e] w'], (m w2) as [[a2|e2] w2']; simpl in *; simplify_eq.
  - by apply Hk.
  - done.
Qed.

Lemma keeps_config_bind {A B : Type} (m : M A) (k : A → M B) :
  keeps_config m → (∀ a, keeps_config (k a)) → keeps_config (m ≫= k).
Proof.
  intros Hm Hk w. unfold mbind, M_bind. specialize (Hm w).
  destruct (m w) as [[a|e] w']; simpl in *; [|done].
  by rewrite Hk.
Qed.

Lemma ode_solver_step_tame (interval : TimeInterval) :
  log_blind (ode_solver_step interval) ∧ keeps_config (ode_solver_step interval).
Proof.
  split.
  - intros w w2 Hw. rewrite !ode_solver_step_unfold. unfold after_ode. simpl. by rewrite Hw.
  - intros w. by rewrite ode_solver_step_unfold.
Qed.

Lemma pde_solver_step_tame (interval : TimeInterval) :
  log_blind (pde_solver_step interval) ∧ keeps_config (pde_solver_step interval).
Proof.
  split.
  - intros w w2 Hw. rewrite !pde_solver_step_unfold. unfold after_pde. simpl. by rewrite Hw.
  - intros w. by rewrite pde_solver_step_unfold.
Qed.

Lemma vs__assign_vs_tame : log_blind vs__assign_vs ∧ keeps_config vs__assign_vs.
Proof.
  split.
  - intros w w2 Hw. rewrite !vs__assign_vs_unfold. unfold after_assign. simpl. by rewrite Hw.
  - done.
Qed.

Lemma in_place_merge_tame (r : Ref) :
  log_blind (in_place r merge) ∧ keeps_config (in_place r merge).
Proof.
  split.
  - intros w w2 Hw. rewrite !in_place_merge_unfold. cbv zeta. rewrite Hw.
    by destruct (FunctionAssigner_assign _ _).
  - intros w. rewrite in_place_merge_unfold. cbv zeta.
    destruct (FunctionAssigner_assign _ _); [|done]. by destruct r.
Qed.

Lemma step_tame (interval : TimeInterval) :
  log_blind (step interval) ∧ keeps_config (step interval).
Proof.
  destruct interval as [t0 t1].
  pose proof ode_solver_step_tame as Hode.
  pose proof pde_solver_step_tame as Hpde.
  pose proof vs__assign_vs_tame as Hassign.
  pose proof in_place_merge_tame as Hmerge.
  assert (Hbody : ∀ theta : Qc,
    let t := t0 ⊕ theta ⊗ (t1 ⊖ t0) in
    let body : M unit :=
      ode_solver_step (t0, t);;
      pde_solver_step (t0, t1);;
      if decide (theta = 1) then in_place ref_vs merge
      else vs__assign_vs;; in_place ref_vs_ merge;; ode_solver_step (t, t1);; vs__assign_vs in
    log_blind body ∧ keeps_config body).
  { intros theta t body. unfold body. split.
    - apply log_blind_bind; [apply Hode|intros _].
      apply log_blind_bind; [apply Hpde|intros _].
      destruct (decide (theta = 1)); [apply Hmerge|].
      apply log_blind_bind; [apply Hassign|intros _].
      apply log_blind_bind; [apply Hmerge|intros _].
      apply log_blind_bind; [apply Hode|intros _]. apply Hassign.
    - apply keeps_config_bind; [apply Hode|intros _].
      apply keeps_config_bind; [apply Hpde|intros _].
      destruct (decide (theta = 1)); [apply Hmerge|].
      apply keeps_config_bind; [apply Hassign|intros _].
      apply keeps_config_bind; [apply Hmerge|intros _].
      apply keeps_config_bind; [apply Hode|intros _]. apply Hassign. }
  split.
  - intros w w2 Hw. rewrite !step_unfold. cbv zeta. rewrite <- Hw.
    by apply (Hbody (SplittingParameters.theta (parameters (self w)))).
  - intros w. rewrite step_unfold. cbv zeta.
    by apply (Hbody (SplittingParameters.theta (parameters (self w)))).
Qed.

Lemma step_keeps_theta (interval : TimeInterval) (w : World) :
  SplittingParameters.theta (parameters (self (step interval w).2))
  = SplittingParameters.theta (parameters (self w)).
Proof.
  pose proof (proj2 (step_tame interval) w) as H.
  apply (f_equal (λ c, c.1.1.1.1.1.2)) in H. simpl in H. by rewrite H.
Qed.

(** After a Strang step the previous state is the current state, and the
    assignment made on resuming changes nothing in the solver. *)
Lemma strang_step_exit (interval : TimeInterval) (w w' : World) :
  SplittingParameters.theta (parameters (self w)) ≠ 1 →
  step interval w = (Ok tt, w') →
  vs_ (self w') = vs (self w') ∧ self (after_assign w') = self w'.
Proof.
  destruct interval as [t0 t1]. intros Htheta Hstep.
  pose proof (step_ok_inv w w' t0 t1 Hstep) as (H1 & H2 & Hl & H3).
  pose proof (step_strang w t0 t1 H1 H2 Hl) as HS.
  rewrite (HS Htheta (H3 Htheta)) in Hstep. injection Hstep as <-. done.
Qed.

Lemma after_assign_id (w : World) :
  vs_ (self w) = vs (self w) → self (after_assign w) = self w.
Proof. unfold after_assign. simpl. intros <-. by destruct (self w). Qed.

(** *** The loop *)

Lemma next_pending (nxt : Frame → World → (Sent * Frame) * World)
    (g g' : Frame) (w w' : World) (iv : TimeInterval) (fields : Ref * Ref * Ref) :
  (nxt = next ∨ nxt = next_single_assign) →
  nxt g w = ((Yield iv fields, g'), w') → pending g = S (pending g').
Proof.
  assert (Hl : ∀ l w0, loop_head l w0 = ((Yield iv fields, g'), w') →
                       S (length l) = S (pending g')).
  { intros [|iv0 later] w0; simpl; [done|].
    destruct (step iv0 w0) as [[[]|e] w1]; [|done]. by intros [= _ _ <- _]. }
  intros [-> | ->]; destruct g as [interval dt|l|]; simpl.
  - destruct (TimeStepper interval dt) as [l|e]; [apply Hl|done].
  - apply Hl.
  - done.
  - destruct (TimeStepper interval dt) as [l|e]; [apply Hl|done].
  - apply Hl.
  - done.
Qed.

(** The loop over a generator of [solve] comes to an end. *)
Lemma for_loop_ends (nxt : Frame → World → (Sent * Frame) * World) (fuel : nat) :
  (nxt = next ∨ nxt = next_single_assign) →
  ∀ (g : Frame) (w : World),
    (pending g ≤ fuel)%nat → ending (for_loop nxt fuel g w) ≠ cut_short.
Proof.
  intros Hn. induction fuel as [|fuel IH]; intros g w Hfuel.
  - destruct g as [interval dt|l|]; simpl in Hfuel; [destruct (TimeStepper _ _)|..]; lia.
  - simpl. destruct (nxt g w) as [[[iv fields| |e] g'] w'] eqn:Hnext; simpl; [|done..].
    apply IH. apply (next_pending nxt _ _ _ _ _ _ Hn) in Hnext. lia.
Qed.

(** Resumed side by side on the same solver, the generator and its variant
    with a single assignment make the same run. *)
Lemma for_loop_single_assign (fuel : nat) :
  ∀ (g : Frame) (w w2 : World),
    SplittingParameters.theta (parameters (self w)) ≠ 1 →
    self w = self w2 →
    (∀ l, g = AtYield l → vs_ (self w) = vs (self w)) →
    same_run (for_loop next fuel g w) (for_loop next_single_assign fuel g w2).
Proof.
  induction fuel as [|fuel IH]; intros g w w2 Htheta Hw Hyield; [done|].
  assert (Hloop : ∀ (l : list TimeInterval) (wa wb : World),
    SplittingParameters.theta (parameters (self wa)) ≠ 1 →
    self wa = self wb →
    same_run
      (match loop_head l wa with
       | ((Yield iv fields, g'), w') =>
           let r := for_loop next fuel g' w' in
           {| yielded := (iv, fields) :: yielded r; seen := (iv, view w' fields) :: seen r;
              ending := ending r; final := final r |}
       | ((StopIteration, _), w') =>
           {| yielded := []; seen := []; ending := completed; final := w' |}
       | ((Raised e, _), w') =>
           {| yielded := []; seen := []; ending := failed e; final := w' |}
       end)
      (match loop_head l wb with
       | ((Yield iv fields, g'), w') =>
           let r := for_loop next_single_assign fuel g' w' in
           {| yielded := (iv, fields) :: yielded r; seen := (iv, view w' fields) :: seen r;
              ending := ending r; final := final r |}
       | ((StopIteration, _), w') =>
           {| yielded := []; seen := []; ending := completed; final := w' |}
       | ((Raised e, _), w') =>
           {| yielded := []; seen := []; ending := failed e; final := w' |}
       end)).
  { intros [|iv later] wa wb Hta Hab; simpl; [done|].
    destruct (proj1 (step_tame iv) wa wb Hab) as [H1 H2].
    pose proof (step_keeps_theta iv wa) as Hk.
    destruct (step iv wa) as [[[]|e] wa'] eqn:Hsa, (step iv wb) as [[[]|e2] wb'] eqn:Hsb;
      simpl in *; simplify_eq; [|done].
    destruct (strang_step_exit iv wa wa' Hta Hsa) as [Hex _].
    destruct (IH (AtYield later) wa' wb') as (Hy & Hs & He & Hf).
    - by rewrite Hk.
    - done.
    - intros _ _. exact Hex.
    - unfold same_run. cbn [yielded seen ending final].
      rewrite Hy, Hs, He, Hf, H2. done. }
  destruct g as [interval dt|l|]; cbn [for_loop next next_single_assign].
  - destruct (TimeStepper interval dt) as [l|e]; [by apply Hloop|done].
  - rewrite vs__assign_vs_unfold. apply Hloop.
    + done.
    + rewrite <- Hw. apply after_assign_id. by apply (Hyield l).
  - done.
Qed.

(** The calls of a [step], however it ends, are an initial part of the
    calls of a [step] in which nothing raises: no call is repeated, and no
    call follows one that raised. *)
Lemma step_calls_prefix (w w' : World) (t0 t1 : Qc) (r : Res unit) :
  step (t0, t1) w = (r, w') →
  ∃ cs : list Call,
    calls w' = calls w ++ cs ∧ cs ≠ [] ∧
    cs `prefix_of` step_calls (SplittingParameters.theta (parameters (self w))) (t0, t1) ∧
    (r = Ok tt → cs = step_calls (SplittingParameters.theta (parameters (self w))) (t0, t1)).
Proof.
  set (theta := SplittingParameters.theta (parameters (self w))).
  set (t := t0 ⊕ theta ⊗ (t1 ⊖ t0)).
  assert (Hfin : ∀ (cs : list Call),
    cs ≠ [] →
    cs `prefix_of` step_calls theta (t0, t1) →
    (r = Ok tt → cs = step_calls theta (t0, t1)) →
    ∀ c : list Call, c = calls w ++ cs →
    ∃ cs0, c = calls w ++ cs0 ∧ cs0 ≠ [] ∧
           cs0 `prefix_of` step_calls theta (t0, t1) ∧
           (r = Ok tt → cs0 = step_calls theta (t0, t1))).
  { intros cs ? ? ? c ->. by exists cs. }
  rewrite step_unfold. cbv zeta. fold theta. fold t.
  unfold mbind at 1. unfold M_bind. rewrite ode_solver_step_unfold.
  destruct (raised _) as [e|].
  { intros [= <- <-]. apply (Hfin [ode_solver_step_call (t0, t)]); [done| |done|done].
    unfold step_calls. fold t. destruct (decide (theta = 1)); by eexists. }
  unfold mbind at 1. unfold M_bind. rewrite pde_solver_step_unfold.
  destruct (raised _) as [e|].
  { intros [= <- <-].
    apply (Hfin [ode_solver_step_call (t0, t); pde_solver_step_call (t0, t1)]); [done| |done|].
    - unfold step_calls. fold t. destruct (decide (theta = 1)); by eexists.
    - cbn [after_pde after_ode calls]. by rewrite <- app_assoc. }
  revert Hfin. unfold step_calls. fold t.
  destruct (decide (theta = 1)) as [Htheta|Htheta]; intros Hfin.
  - rewrite in_place_merge_unfold. cbv zeta.
    destruct (FunctionAssigner_assign _ _) as [f|e]; intros [= <- <-];
      (apply (Hfin [ode_solver_step_call (t0, t); pde_solver_step_call (t0, t1);
                    merger_assign_call]); [done|done|done|]);
      cbn [after_pde after_ode calls]; by rewrite <- !app_assoc.
  - rewrite (bind_ok _ _ _ _ _ (vs__assign_vs_unfold _)).
    unfold mbind at 1. unfold M_bind. rewrite in_place_merge_unfold. cbv zeta.
    destruct (FunctionAssigner_assign _ _) as [f|e].
    2:{ intros [= <- <-].
        apply (Hfin [ode_solver_step_call (t0, t); pde_solver_step_call (t0, t1);
                     vs__assign_call; merger_assign_call]); [done| |done|].
        - by eexists.
        - cbn [after_assign after_pde after_ode calls]. by rewrite <- !app_assoc. }
    unfold mbind at 1. unfold M_bind. rewrite ode_solver_step_unfold.
    destruct (raised _) as [e|].
    { intros [= <- <-].
      apply (Hfin [ode_solver_step_call (t0, t); pde_solver_step_call (t0, t1);
                   vs__assign_call; merger_assign_call; ode_solver_step_call (t, t1)]);
        [done| |done|].
      - by eexists.
      - cbn [after_assign after_pde after_ode calls]. by rewrite <- !app_assoc. }
    rewrite vs__assign_vs_unfold. intros [= <- <-].
    apply (Hfin [ode_solver_step_call (t0, t); pde_solver_step_call (t0, t1);
                 vs__assign_call; merger_assign_call; ode_solver_step_call (t, t1);
                 vs__assign_call]); [done|done|done|].
    cbn [after_assign after_pde after_ode calls]. by rewrite <- !app_assoc.
Qed.

(** What the loop body has read was left by a step that returned, and what
    it was handed are the references to the solver's own functions. *)
Lemma for_loop_seen (fuel : nat) :
  ∀ (g : Frame) (w : World),
    let r := for_loop next fuel g w in
    Forall (λ y, y.2 = solution_fields) (yielded r) ∧
    Forall (λ o, ∃ w0 w1 : World,
                   step o.1 w0 = (Ok tt, w1) ∧ o.2 = view w1 solution_fields) (seen r) ∧
    (yielded r).*1 = (seen r).*1.
Proof.
  induction fuel as [|fuel IH]; intros g w; [done|].
  assert (Hloop : ∀ (l : list TimeInterval) (w0 : World),
    let r := match loop_head l w0 with
       | ((Yield iv fields, g'), w') =>
           let r := for_loop next fuel g' w' in
           {| yielded := (iv, fields) :: yielded r; seen := (iv, view w' fields) :: seen r;
              ending := ending r; final := final r |}
       | ((StopIteration, _), w') =>
           {| yielded := []; seen := []; ending := completed; final := w' |}
       | ((Raised e, _), w') =>
           {| yielded := []; seen := []; ending := failed e; final := w' |}
       end in
    Forall (λ y, y.2 = solution_fields) (yielded r) ∧
    Forall (λ o, ∃ w0 w1 : World,
                   step o.1 w0 = (Ok tt, w1) ∧ o.2 = view w1 solution_fields) (seen r) ∧
    (yielded r).*1 = (seen r).*1).
  { intros [|iv later] w0; cbn [loop_head]; [done|].
    destruct (step iv w0) as [[[]|e] w1] eqn:Hs; [|done].
    destruct (IH (AtYield later) w1) as (Hy & Hs' & Hl).
    cbv zeta. cbn [yielded seen]. split_and!.
    - by constructor.
    - constructor; [|done]. by exists w0, w1.
    - cbn [fmap list_fmap]. by rewrite Hl. }
  destruct g as [interval dt|l|]; cbn [for_loop next].
  - destruct (TimeStepper interval dt) as [l|e]; [apply Hloop|done].
  - rewrite vs__assign_vs_unfold. apply Hloop.
  - done.
Qed.

(** *** The generator *)

(** C8. With [theta < 1], [step] ends by assigning [vs_] from [vs]: when
    the generator yields, the previous state is the current state, and the
    assignment [solve] makes on being resumed leaves the solver as it is.
    Hence looping over [solve] and looping over its variant that does not
    repeat the assignment are the same run: the same values are yielded, the
    loop body reads the same functions through them, the loop ends the same
    way and leaves the same solver. *)
Theorem single_assignment_equivalent (w : World) :
  SplittingParameters.theta (parameters (self w)) < 1 →
  (∀ (interval : TimeInterval) (w' : World),
     step interval w = (Ok tt, w') →
     vs_ (self w') = vs (self w') ∧
     (vs__assign_vs w').1 = Ok tt ∧
     self (vs__assign_vs w').2 = self w') ∧
  (∀ (interval : TimeInterval) (dt : Qc),
     same_run (iterate (solve interval dt) w)
              (iterate_single_assign (solve interval dt) w) ∧
     ending (iterate (solve interval dt) w) ≠ cut_short).
Proof.
  intros Hlt.
  assert (Htheta : SplittingParameters.theta (parameters (self w)) ≠ 1).
  { intros E. rewrite E in Hlt. by apply Qclt_not_eq in Hlt. }
  split.
  - intros interval w' Hstep.
    destruct (strang_step_exit interval w w' Htheta Hstep) as [H1 H2].
    rewrite vs__assign_vs_unfold. done.
  - intros interval dt. split.
    + unfold iterate, iterate_single_assign. by apply for_loop_single_assign.
    + unfold iterate. apply for_loop_ends; [by left|done].
Qed.

(** A [step] that raises has stopped at the call that raised. *)
Lemma step_raise_inv (w w' : World) (t0 t1 : Qc) (e : Exn) :
  step (t0, t1) w = (Raise e, w') →
  ∃ cs : list Call, calls w' = calls w ++ cs ∧ step_failure w (t0, t1) e cs.
Proof.
  unfold step_failure. cbv zeta. cbn [fst snd].
  set (s := self w).
  set (theta := SplittingParameters.theta (parameters s)).
  set (t := t0 ⊕ theta ⊗ (t1 ⊖ t0)).
  set (tentative := ODESolver_step (ode_solver s) (t0, t) (vs_ s) (vs s)).
  set (pde := PDESolver_step (pde_solver s) (t0, t1) (sub0 (written tentative)) (vur s)).
  rewrite step_unfold. cbv zeta. fold s. fold theta. fold t.
  unfold mbind at 1. unfold M_bind. rewrite ode_solver_step_unfold.
  fold s. fold tentative.
  destruct (raised tentative) as [e0|] eqn:Hode.
  { intros [= <- <-]. eexists. split; [reflexivity|]. by left. }
  unfold mbind at 1. unfold M_bind. rewrite pde_solver_step_unfold.
  cbn [after_ode self set_vs pde_solver vs vur]. fold s. fold tentative. fold pde.
  destruct (raised pde) as [e0|] eqn:Hpde.
  { intros [= <- <-]. eexists. split.
    - cbn [after_pde after_ode calls]. by rewrite <- app_assoc.
    - right. by left. }
  set (w2 := after_pde (t0, t1) (after_ode (t0, t) w)).
  assert (Hl : merge_layout_ok (self w2) ↔ merge_layout_ok (set_vur (written pde) s)) by done.
  assert (Hv0 : sub0 (merge_v (self w2)) = sub0 (written pde)) by (by rewrite merge_v_sub0).
  destruct (decide (theta = 1)) as [Htheta|Htheta].
  - rewrite in_place_merge_unfold. cbv zeta.
    destruct (FunctionAssigner_assign _ _) as [f|e0] eqn:Hf; [done|].
    intros [= <- <-]. apply assign_raise_inv in Hf as [Hv ->].
    eexists. split.
    + cbn [w2 after_pde after_ode calls]. rewrite <- !app_assoc. reflexivity.
    + right. right. left. split_and!; try done.
      intros Hok. apply Hv. apply merge_layout_ok_iff. by apply Hl.
  - rewrite (bind_ok _ _ _ _ _ (vs__assign_vs_unfold _)).
    set (w3 := after_assign w2).
    unfold mbind at 1. unfold M_bind. rewrite in_place_merge_unfold. cbv zeta.
    assert (Hm : merge_v (self w3) = merge_v (self w2)) by done.
    rewrite Hm.
    destruct (FunctionAssigner_assign _ _) as [f|e0] eqn:Hf.
    + apply assign_ok_inv in Hf as [Hv ->]. rewrite Hv0.
      unfold mbind at 1. unfold M_bind. rewrite ode_solver_step_unfold.
      cbn [self store set_vs_ ode_solver vs_ vs].
      match goal with
      | |- context [raised ?o] => destruct (raised o) as [e0|] eqn:Hcorr
      end; [|by rewrite vs__assign_vs_unfold].
      intros [= <- <-]. eexists. split.
      * cbn [w3 w2 after_assign after_pde after_ode calls]. rewrite <- !app_assoc. reflexivity.
      * right. right. right. split_and!; try done.
        apply Hl. by apply merge_layout_ok_iff.
    + intros [= <- <-]. apply assign_raise_inv in Hf as [Hv ->].
      eexists. split.
      * cbn [w3 w2 after_assign after_pde after_ode calls]. rewrite <- !app_assoc. reflexivity.
      * right. right. left. split_and!; try done.
        intros Hok. apply Hv. apply merge_layout_ok_iff. by apply Hl.
Qed.

(** C7, as the code has it.  An exception raised in a sub-step leaves
    [step] at once: no call is repeated and none follows the one that
    raised, so that the calls [step] has made end with the call that raised,
    every sub-step before it having returned.  It leaves the generator too, which is finished from then on and
    yields nothing more.  Every value the loop was handed before was yielded
    after a [step] that returned, and what the loop read through it then was
    the state that step left.  But a yielded value holds references to
    [vs_], [vs] and [vur] themselves: read later, it shows the functions as
    they are then. *)
Theorem solve_failure_propagates :
  (∀ (g g' : Frame) (w w' : World) (e : Exn),
     next g w = ((Raised e, g'), w') →
     g' = Finished ∧ ∀ w'' : World, next g' w'' = ((StopIteration, Finished), w'')) ∧
  (∀ (later : list TimeInterval) (t0 t1 : Qc) (w w' : World) (e : Exn),
     step (t0, t1) w = (Raise e, w') →
     (∀ (interval : TimeInterval) (dt : Qc),
        TimeStepper interval dt = Ok ((t0, t1) :: later) →
        next (solve interval dt) w = ((Raised e, Finished), w')) ∧
     (∀ w0 : World,
        (vs__assign_vs w0).2 = w →
        next (AtYield ((t0, t1) :: later)) w0 = ((Raised e, Finished), w')) ∧
     ∃ cs : list Call,
       calls w' = calls w ++ cs ∧ cs ≠ [] ∧
       cs `prefix_of` step_calls (SplittingParameters.theta (parameters (self w))) (t0, t1) ∧
       step_failure w (t0, t1) e cs) ∧
  (∀ (g : Frame) (w : World),
     ending (iterate g w) ≠ cut_short ∧
     Forall (λ y, y.2 = solution_fields) (yielded (iterate g w)) ∧
     Forall (λ o, ∃ w0 w1 : World,
                    step o.1 w0 = (Ok tt, w1) ∧ o.2 = view w1 solution_fields)
            (seen (iterate g w)) ∧
     (yielded (iterate g w)).*1 = (seen (iterate g w)).*1) ∧
  (∀ w : World,
     view w solution_fields = (vs_ (self w), vs (self w), vur (self w))).
Proof.
  split_and!.
  - intros g g' w w' e Hnext.
    assert (Hl : ∀ l w0, loop_head l w0 = ((Raised e, g'), w') → g' = Finished).
    { intros [|iv later] w0; simpl; [done|].
      destruct (step iv w0) as [[[]|e0] w1]; [done|]. by intros [= _ <- _]. }
    assert (g' = Finished) as ->; [|done].
    destruct g as [interval dt|l|]; simpl in Hnext.
    + destruct (TimeStepper interval dt) as [l|e0]; [by apply (Hl l w)|].
      by injection Hnext as _ <- _.
    + by apply (Hl l (after_assign w)).
    + done.
  - intros later t0 t1 w w' e Hstep. split_and!.
    + intros interval dt Hts. unfold solve, next. rewrite Hts. simpl. by rewrite Hstep.
    + intros w0 <-. unfold next. rewrite vs__assign_vs_unfold. simpl loop_head.
      rewrite vs__assign_vs_unfold in Hstep. simpl in Hstep. by rewrite Hstep.
    + destruct (step_calls_prefix w w' t0 t1 _ Hstep) as (cs & H1 & H2 & H3 & _).
      destruct (step_raise_inv w w' t0 t1 e Hstep) as (cs' & H1' & Hf).
      assert (cs' = cs) as -> by (rewrite H1 in H1'; by apply app_inv_head in H1').
      eauto.
  - intros g w. split.
    + unfold iterate. apply for_loop_ends; [by left|done].
    + apply for_loop_seen.
  - done.
Qed.

(** *** Construction *)

Lemma _create_ode_solver_I_s (model : CardiacModel) (parameters : SplittingParameters.t)
    (ode_parameters : SingleCellParameters.t) (o : ODESolver.t) :
  _create_ode_solver model parameters ode_parameters = Ok o →
  ODESolver.I_s o =
    if SplittingParameters.apply_stimulus_current_to_pde parameters
    then None else Some (stimulus model).
Proof.
  unfold _create_ode_solver. cbv zeta. unfold mbind, Res_bind.
  repeat case_decide; intros [= <-]; done.
Qed.

Lemma _create_pde_solver_I_s (model : CardiacModel) (parameters : SplittingParameters.t)
    (pde_parameters : BidomainParameters.t) (lsp : LinearSolverParameters)
    (p : PDESolver.t) :
  _create_pde_solver model parameters pde_parameters lsp = Ok p →
  PDESolver.I_s p =
    (if SplittingParameters.apply_stimulus_current_to_pde parameters
     then Some (stimulus model) else None) ∧
  PDESolver.parameters p = pde_parameters.
Proof.
  unfold _create_pde_solver. cbv zeta. unfold mbind, Res_bind.
  destruct (is_bidomain _); repeat case_decide; intros [= <-]; done.
Qed.

Lemma _create_raises_unbound (model : CardiacModel) (parameters : SplittingParameters.t)
    (pde_parameters : BidomainParameters.t) (ode_parameters : SingleCellParameters.t)
    (lsp : LinearSolverParameters) (e : Exn) :
  _create_ode_solver model parameters ode_parameters = Raise e ∨
  _create_pde_solver model parameters pde_parameters lsp = Raise e →
  ∃ name, e = UnboundLocalError name.
Proof.
  unfold _create_ode_solver, _create_pde_solver. cbv zeta. unfold mbind, Res_bind.
  intros [H|H]; revert H; [|destruct (is_bidomain _)];
    repeat case_decide; intros [= <-]; eauto.
Qed.

(** C5. Whenever the two sub-solvers are created for a configuration, the
    stimulus of the model goes to exactly one of them: to the PDE solver,
    with [I_s = None] for the ODE solver, if [apply_stimulus_current_to_pde]
    is set, and to the ODE solver, with [I_s = None] for the PDE solver, if
    it is not.  These two are the sub-solvers [__init__] constructs. *)
Theorem stimulus_goes_to_exactly_one (model : CardiacModel)
    (parameters : SplittingParameters.t) (pde_parameters : BidomainParameters.t)
    (ode_parameters : SingleCellParameters.t) (lsp : LinearSolverParameters)
    (o : ODESolver.t) (p : PDESolver.t) :
  _create_ode_solver model parameters ode_parameters = Ok o →
  _create_pde_solver model parameters pde_parameters lsp = Ok p →
  (SplittingParameters.apply_stimulus_current_to_pde parameters = true →
     PDESolver.I_s p = Some (stimulus model) ∧ ODESolver.I_s o = None) ∧
  (SplittingParameters.apply_stimulus_current_to_pde parameters = false →
     ODESolver.I_s o = Some (stimulus model) ∧ PDESolver.I_s p = None) ∧
  (ODESolver.I_s o = Some (stimulus model) ↔ PDESolver.I_s p ≠ Some (stimulus model)) ∧
  (∀ (s : SplittingSolver) (cs : list Call),
     __init__ model parameters pde_parameters ode_parameters lsp = (Ok s, cs) →
     ode_solver s = o ∧ pde_solver s = p ∧ cs = [new_ode_solver o; new_pde_solver p]).
Proof.
  intros Ho Hp.
  pose proof (_create_ode_solver_I_s _ _ _ _ Ho) as Eo.
  pose proof (_create_pde_solver_I_s _ _ _ _ _ Hp) as [Ep _].
  split_and!.
  - intros E. rewrite E in Eo, Ep. done.
  - intros E. rewrite E in Eo, Ep. done.
  - rewrite Eo, Ep.
    destruct (SplittingParameters.apply_stimulus_current_to_pde parameters); split; done.
  - intros s cs. unfold __init__. cbv zeta. case_decide; [|done].
    rewrite Ho, Hp. destruct (ODESolver_solution_fields o). by intros [= <- <-].
Qed.

(** C9. [__init__] compares the two values of [theta] before anything
    else: if they differ it raises the assertion error with the message of
    the source and no sub-solver has been constructed; if they are equal that
    assertion does not fire (whatever else is raised is not an assertion
    error); and a solver that has been constructed holds one [theta], in its
    own parameters and in the parameters its PDE solver was given. *)
Theorem init_asserts_one_theta (model : CardiacModel)
    (params : SplittingParameters.t) (pde_params : BidomainParameters.t)
    (ode_params : SingleCellParameters.t) (lsp : LinearSolverParameters) :
  (SplittingParameters.theta params ≠ BidomainParameters.theta pde_params →
     __init__ model params pde_params ode_params lsp
     = (Raise (AssertionError "Got two different values for theta."), [])) ∧
  (SplittingParameters.theta params = BidomainParameters.theta pde_params →
     ∀ (e : Exn) (cs : list Call),
       __init__ model params pde_params ode_params lsp = (Raise e, cs) →
       ∀ msg, e ≠ AssertionError msg) ∧
  (∀ (s : SplittingSolver) (cs : list Call),
     __init__ model params pde_params ode_params lsp = (Ok s, cs) →
     SplittingParameters.theta params = BidomainParameters.theta pde_params ∧
     SplittingParameters.theta (parameters s) = SplittingParameters.theta params ∧
     BidomainParameters.theta (PDESolver.parameters (pde_solver s))
       = SplittingParameters.theta (parameters s) ∧
     BidomainParameters.theta (pde_parameters s)
       = SplittingParameters.theta (parameters s)).
Proof.
  unfold __init__. cbv zeta. split_and!.
  - intros Hne. by rewrite decide_False.
  - intros Heq e cs. rewrite decide_True by done.
    destruct (_create_ode_solver _ _ _) as [o|e1] eqn:Ho.
    + destruct (ODESolver_solution_fields o).
      destruct (_create_pde_solver _ _ _ _) as [p|e2] eqn:Hp; [done|].
      intros [= <- _] msg.
      destruct (_create_raises_unbound model params pde_params ode_params lsp e2)
        as [name ->]; [by right|done].
    + intros [= <- _] msg.
      destruct (_create_raises_unbound model params pde_params ode_params lsp e1)
        as [name ->]; [by left|done].
  - intros s cs. case_decide as Heq; [|done].
    destruct (_create_ode_solver _ _ _) as [o|e1] eqn:Ho; [|done].
    destruct (ODESolver_solution_fields o).
    destruct (_create_pde_solver _ _ _ _) as [p|e2] eqn:Hp; [|done].
    intros [= <- _]. cbn.
    apply _create_pde_solver_I_s in Hp as [_ ->]. done.
Qed.

(** *** More on the loop over [solve] *)

Lemma for_loop_run (l : list TimeInterval) :
  ∀ (fuel : nat) (w : World),
    (S (length l) ≤ fuel)%nat →
    for_loop next fuel (AtYield l) w = run_from_head l (after_assign w).
Proof.
  induction l as [|iv later IH]; intros [|fuel] w Hfuel; simpl in Hfuel; try lia.
  - reflexivity.
  - cbn [for_loop next]. rewrite vs__assign_vs_unfold. cbn [loop_head run_from_head].
    destruct (step iv (after_assign w)) as [[[]|e] w']; [|done].
    rewrite IH by lia. reflexivity.
Qed.

Lemma iterate_solve (interval : TimeInterval) (dt : Qc) (l : list TimeInterval) (w : World) :
  TimeStepper interval dt = Ok l →
  iterate (solve interval dt) w = run_from_head l w.
Proof.
  intros Hl. unfold iterate, solve, pending. rewrite Hl.
  cbn [for_loop next]. rewrite Hl.
  destruct l as [|iv later]; [done|]. cbn [loop_head run_from_head].
  destruct (step iv w) as [[[]|e] w']; [|done].
  rewrite for_loop_run by (simpl; lia). reflexivity.
Qed.

Lemma run_from_head_intervals (l : list TimeInterval) :
  ∀ w : World,
    let r := run_from_head l w in
    (ending r = completed → (yielded r).*1 = l) ∧
    (∀ e, ending r = failed e →
       ∃ (iv : TimeInterval) (later : list TimeInterval) (w0 : World),
         l = (yielded r).*1 ++ iv :: later ∧ (step iv w0).1 = Raise e) ∧
    ending r ≠ cut_short.
Proof.
  induction l as [|iv later IH]; intros w; cbv zeta; cbn [run_from_head].
  { cbn. split_and!; done. }
  destruct (step iv w) as [[[]|e] w'] eqn:Hstep.
  - destruct (IH (after_assign w')) as (Hc & Hf & Hn). cbv zeta in *.
    cbn [yielded ending fmap list_fmap]. split_and!; [| |done].
    + intros H. cbn. by rewrite (Hc H).
    + intros e H. destruct (Hf e H) as (iv' & later' & w0 & Heq & Hs).
      exists iv', later', w0. split; [|done]. cbn. f_equal. exact Heq.
  - cbn. split_and!; [done| |done].
    intros e' [= <-]. exists iv, later, w. by rewrite Hstep.
Qed.

(** X1. The loop over [solve] is handed one result per interval of the
    time stepper, in the stepper's order.  A loop that completes has been
    handed all of them; a loop that fails has been handed those before the
    interval whose [step] raised, and the exception is the one that [step]
    raised. *)
Theorem solve_yields_one_per_interval (interval : TimeInterval) (dt : Qc)
    (l : list TimeInterval) (w : World) :
  TimeStepper interval dt = Ok l →
  (ending (iterate (solve interval dt) w) = completed →
     (yielded (iterate (solve interval dt) w)).*1 = l) ∧
  (∀ e : Exn, ending (iterate (solve interval dt) w) = failed e →
     ∃ (iv : TimeInterval) (later : list TimeInterval) (w0 : World),
       l = (yielded (iterate (solve interval dt) w)).*1 ++ iv :: later ∧
       (step iv w0).1 = Raise e) ∧
  ending (iterate (solve interval dt) w) ≠ cut_short.
Proof.
  intros Hl. rewrite (iterate_solve _ _ _ _ Hl). apply run_from_head_intervals.
Qed.

Lemma run_from_head_final (l : list TimeInterval) :
  ∀ w : World,
    vs_ (self w) = vs (self w) ∨ l ≠ [] →
    ending (run_from_head l w) = completed →
    vs_ (self (final (run_from_head l w))) = vs (self (final (run_from_head l w))).
Proof.
  induction l as [|iv later IH]; intros w Hw; cbn [run_from_head].
  - destruct Hw as [Hw|Hw]; done.
  - destruct (step iv w) as [[[]|e] w']; [|done]. cbn [ending final].
    apply IH. by left.
Qed.

(** X2. When a loop over [solve] that made at least one step completes,
    the previous state of the solver is its current state, whatever [theta]
    is: the generator is resumed once more after the last [yield] and assigns
    [vs_] from [vs] before it finds the time stepper exhausted. *)
Theorem solve_completed_previous_is_current (interval : TimeInterval) (dt : Qc)
    (l : list TimeInterval) (w : World) :
  TimeStepper interval dt = Ok l →
  l ≠ [] →
  ending (iterate (solve interval dt) w) = completed →
  vs_ (self (final (iterate (solve interval dt) w)))
  = vs (self (final (iterate (solve interval dt) w))).
Proof.
  intros Hl Hne. rewrite (iterate_solve _ _ _ _ Hl). apply run_from_head_final. by right.
Qed.

Lemma godunov_keeps_vs_ (interval : TimeInterval) (w : World) :
  SplittingParameters.theta (parameters (self w)) = 1 →
  vs_ (self (step interval w).2) = vs_ (self w).
Proof.
  destruct interval as [t0 t1]. intros Htheta.
  rewrite step_unfold. cbv zeta. rewrite Htheta. rewrite decide_True by done.
  unfold mbind at 1. unfold M_bind. rewrite ode_solver_step_unfold.
  destruct (raised _); [done|].
  unfold mbind at 1. unfold M_bind. rewrite pde_solver_step_unfold.
  destruct (raised _); [done|].
  rewrite in_place_merge_unfold. cbv zeta.
  by destruct (FunctionAssigner_assign _ _).
Qed.

Lemma run_from_head_godunov (l : list TimeInterval) :
  ∀ w : World,
    SplittingParameters.theta (parameters (self w)) = 1 →
    chained (vs_ (self w)) (seen (run_from_head l w)) ∧
    vs_ (self (final (run_from_head l w)))
    = last_current (vs_ (self w)) (seen (run_from_head l w)).
Proof.
  induction l as [|iv later IH]; intros w Htheta; cbn [run_from_head]; [done|].
  pose proof (godunov_keeps_vs_ iv w Htheta) as Hkeep.
  pose proof (step_keeps_theta iv w) as Hk.
  destruct (step iv w) as [[[]|e] w'] eqn:Hstep; cbn [snd] in *.
  - destruct (IH (after_assign w')) as [Hc Hf].
    { cbn. by rewrite Hk. }
    cbn [seen final chained view solution_fields deref].
    split; [by split|]. rewrite Hf. reflexivity.
  - cbn. done.
Qed.

(** X4. With [theta = 1], the previous state is always the last state the
    loop was handed: at every [yield], [vs_] is the [vs] of the [yield]
    before (the [vs_] the solver started with, at the first), and when the
    loop ends, completed or failed, the [vs_] of the solver is the [vs] of
    the last [yield] (the [vs_] it started with, if nothing was yielded). *)
Theorem godunov_previous_is_last_yielded (interval : TimeInterval) (dt : Qc)
    (l : list TimeInterval) (w : World) :
  TimeStepper interval dt = Ok l →
  SplittingParameters.theta (parameters (self w)) = 1 →
  chained (vs_ (self w)) (seen (iterate (solve interval dt) w)) ∧
  vs_ (self (final (iterate (solve interval dt) w)))
  = last_current (vs_ (self w)) (seen (iterate (solve interval dt) w)).
Proof.
  intros Hl Htheta. rewrite (iterate_solve _ _ _ _ Hl). by apply run_from_head_godunov.
Qed.

Lemma bind_raise {A B : Type} (m : M A) (k : A → M B) (w w' : World) (e : Exn) :
  m w = (Raise e, w') → (m ≫= k) w = (Raise e, w').
Proof. intros H. unfold mbind, M_bind. by rewrite H. Qed.

(** X3. With [theta = 1], [step] does not write [vs_]: whether it returns
    or raises, and wherever it raises, the previous state is as it was on
    entry.  (With any [theta], a [step] whose first ODE sub-step raises has
    written neither [vs_] nor [vur].) *)
Theorem godunov_step_keeps_previous (t0 t1 : Qc) (w : World) :
  (SplittingParameters.theta (parameters (self w)) = 1 →
   vs_ (self (step (t0, t1) w).2) = vs_ (self w)) ∧
  (∀ e : Exn,
     raised (ODESolver_step (ode_solver (self w))
               (t0, split_point (SplittingParameters.theta (parameters (self w))) (t0, t1))
               (vs_ (self w)) (vs (self w))) = Some e →
     (step (t0, t1) w).1 = Raise e ∧
     vs_ (self (step (t0, t1) w).2) = vs_ (self w) ∧
     vur (self (step (t0, t1) w).2) = vur (self w)).
Proof.
  split; [apply godunov_keeps_vs_|].
  intros e He. unfold split_point in He. cbn [fst snd] in He.
  assert (H : step (t0, t1) w =
              (Raise e, after_ode (t0, t0 ⊕ SplittingParameters.theta (parameters (self w))
                                              ⊗ (t1 ⊖ t0)) w)).
  { rewrite step_unfold. cbv zeta. apply bind_raise.
    rewrite ode_solver_step_unfold. by rewrite He. }
  rewrite H. done.
Qed.

Lemma merge_raise_inv (r : Ref) (w w' : World) (e : Exn) :
  in_place r merge w = (Raise e, w') →
  is_bidomain (BidomainParameters.solver (pde_parameters (self w))) = false ∧
  rest (vur (self w)) ≠ [] ∧
  e = RuntimeError "FunctionAssigner: source is not in the assigning space".
Proof.
  rewrite in_place_merge_unfold. cbv zeta.
  destruct (FunctionAssigner_assign _ _) as [f|e0] eqn:Hf; [done|].
  intros [= <- _]. apply assign_raise_inv in Hf as [Hv ->].
  unfold merge_v in Hv. destruct (is_bidomain _); done.
Qed.

(** X6. What [step] raises was raised by a collaborator: by a [step] of
    its ODE solver, by the [step] of its PDE solver, or by the assigner of
    [merge]; and the assigner can refuse only for a solver that is not a
    bidomain solver and whose [vur] is not a function on a scalar space.
    With a bidomain solver, [step] raises only what a sub-solver raised. *)
Theorem step_raises_only_from_collaborators (t0 t1 : Qc) (w w' : World) (e : Exn) :
  step (t0, t1) w = (Raise e, w') →
  (∃ (iv : TimeInterval) (prev old : Function),
     raised (ODESolver_step (ode_solver (self w)) iv prev old) = Some e) ∨
  (∃ (v : Field) (old : Function),
     raised (PDESolver_step (pde_solver (self w)) (t0, t1) v old) = Some e) ∨
  (is_bidomain (BidomainParameters.solver (pde_parameters (self w))) = false ∧
   rest (vur (self w')) ≠ [] ∧
   e = RuntimeError "FunctionAssigner: source is not in the assigning space").
Proof.
  rewrite step_unfold. cbv zeta.
  unfold mbind at 1. unfold M_bind. rewrite ode_solver_step_unfold.
  destruct (raised _) as [e0|] eqn:H1.
  { intros [= <- _]. left. eauto. }
  unfold mbind at 1. unfold M_bind. rewrite pde_solver_step_unfold.
  match goal with |- context [raised ?o] => destruct (raised o) as [e0|] eqn:H2 end.
  { intros [= <- _]. right. left. eauto. }
  destruct (decide _) as [Htheta|Htheta].
  - destruct (in_place ref_vs merge _) as [[[]|e0] w0] eqn:Hm; [done|].
    intros [= <- <-]. right. right.
    pose proof Hm as Hm'. apply merge_raise_inv in Hm' as (Hb & Hv & ->).
    rewrite in_place_merge_unfold in Hm. cbv zeta in Hm.
    destruct (FunctionAssigner_assign _ _); [done|]. injection Hm as _ <-.
    split_and!; [exact Hb|exact Hv|done].
  - rewrite (bind_ok _ _ _ _ _ (vs__assign_vs_unfold _)).
    unfold mbind at 1. unfold M_bind.
    destruct (in_place ref_vs_ merge _) as [[[]|e0] w0] eqn:Hm.
    + unfold mbind at 1. unfold M_bind. rewrite ode_solver_step_unfold.
      rewrite in_place_merge_unfold in Hm. cbv zeta in Hm.
      destruct (FunctionAssigner_assign _ _); [|done]. injection Hm as <-.
      match goal with |- context [raised ?o] => destruct (raised o) as [e0|] eqn:H3 end;
        [|by rewrite vs__assign_vs_unfold].
      intros [= <- _]. left. cbn [self store set_vs_ ode_solver] in H3. eauto.
    + intros [= <- <-]. right. right.
      pose proof Hm as Hm'. apply merge_raise_inv in Hm' as (Hb & Hv & ->).
      rewrite in_place_merge_unfold in Hm. cbv zeta in Hm.
      destruct (FunctionAssigner_assign _ _); [done|]. injection Hm as _ <-.
    split_and!; [exact Hb|exact Hv|done].
Qed.

(** *** More on construction *)

(** Membership of a name in a list of names, by cases. *)
Ltac name_cases :=
  repeat match goal with
  | H : context [_ ∈ _ :: _] |- _ => rewrite elem_of_cons in H
  | H : context [_ ∈ []] |- _ => rewrite elem_of_nil in H
  | |- context [_ ∈ _ :: _] => rewrite elem_of_cons
  | |- context [_ ∈ []] => rewrite elem_of_nil
  end;
  intuition congruence.

Lemma create_ode_solver_known (model : CardiacModel)
    (params : SplittingParameters.t) (ode_params : SingleCellParameters.t) :
  SingleCellParameters.solver ode_params ∈ ["BasicCardiacODESolver"; "CardiacODESolver"] →
  ∃ o, _create_ode_solver model params ode_params = Ok o.
Proof.
  unfold _create_ode_solver. cbv zeta. unfold mbind, Res_bind. intros Hin.
  repeat case_decide; eauto. exfalso. name_cases.
Qed.

Lemma create_ode_solver_unknown (model : CardiacModel)
    (params : SplittingParameters.t) (ode_params : SingleCellParameters.t) :
  SingleCellParameters.solver ode_params ∉ ["BasicCardiacODESolver"; "CardiacODESolver"] →
  _create_ode_solver model params ode_params = Raise (UnboundLocalError "solver_class").
Proof.
  unfold _create_ode_solver. cbv zeta. unfold mbind, Res_bind. intros Hn.
  rewrite !decide_False; [done|..]; intros E; apply Hn; rewrite E; name_cases.
Qed.

Lemma create_pde_solver_known (model : CardiacModel)
    (params : SplittingParameters.t) (pde_params : BidomainParameters.t)
    (lsp : LinearSolverParameters) :
  BidomainParameters.solver pde_params
    ∈ ["BasicBidomainSolver"; "BidomainSolver"; "BasicMonodomainSolver"; "MonodomainSolver"] →
  ∃ p, _create_pde_solver model params pde_params lsp = Ok p.
Proof.
  unfold _create_pde_solver, is_bidomain. cbv zeta. unfold mbind, Res_bind. intros Hin.
  case_bool_decide as Hb.
  - repeat case_decide; eauto. exfalso. name_cases.
  - repeat case_decide; eauto. exfalso. name_cases.
Qed.

Lemma create_pde_solver_unknown (model : CardiacModel)
    (params : SplittingParameters.t) (pde_params : BidomainParameters.t)
    (lsp : LinearSolverParameters) :
  BidomainParameters.solver pde_params
    ∉ ["BasicBidomainSolver"; "BidomainSolver"; "BasicMonodomainSolver"; "MonodomainSolver"] →
  _create_pde_solver model params pde_params lsp = Raise (UnboundLocalError "PDESolver").
Proof.
  unfold _create_pde_solver, is_bidomain. cbv zeta. unfold mbind, Res_bind. intros Hn.
  rewrite bool_decide_eq_false_2 by name_cases.
  rewrite !decide_False; [done|..]; intros E; apply Hn; rewrite E; name_cases.
Qed.

(** X9. [__init__] returns a solver exactly when the two values of [theta]
    agree and both solver names are known.  It constructs the ODE solver
    first: with equal [theta] and an unknown ODE solver name nothing has been
    constructed when it raises, and with a known ODE name and an unknown PDE
    name the ODE solver has already been constructed.  The solver returned
    holds the functions of its sub-solvers. *)
Theorem init_succeeds_iff (model : CardiacModel)
    (params : SplittingParameters.t) (pde_params : BidomainParameters.t)
    (ode_params : SingleCellParameters.t) (lsp : LinearSolverParameters) :
  ((∃ s cs, __init__ model params pde_params ode_params lsp = (Ok s, cs)) ↔
   SplittingParameters.theta params = BidomainParameters.theta pde_params ∧
   SingleCellParameters.solver ode_params ∈ ["BasicCardiacODESolver"; "CardiacODESolver"] ∧
   BidomainParameters.solver pde_params
     ∈ ["BasicBidomainSolver"; "BidomainSolver"; "BasicMonodomainSolver"; "MonodomainSolver"]) ∧
  (SplittingParameters.theta params = BidomainParameters.theta pde_params →
   SingleCellParameters.solver ode_params ∉ ["BasicCardiacODESolver"; "CardiacODESolver"] →
   __init__ model params pde_params ode_params lsp
   = (Raise (UnboundLocalError "solver_class"), [])) ∧
  (SplittingParameters.theta params = BidomainParameters.theta pde_params →
   BidomainParameters.solver pde_params
     ∉ ["BasicBidomainSolver"; "BidomainSolver"; "BasicMonodomainSolver"; "MonodomainSolver"] →
   ∀ o, _create_ode_solver model params ode_params = Ok o →
   __init__ model params pde_params ode_params lsp
   = (Raise (UnboundLocalError "PDESolver"), [new_ode_solver o])) ∧
  (∀ s cs, __init__ model params pde_params ode_params lsp = (Ok s, cs) →
   (vs_ s, vs s) = ODESolver_solution_fields (ode_solver s) ∧
   vur s = PDESolver_vur (pde_solver s) ∧
   _model s = model ∧ parameters s = params ∧ pde_parameters s = pde_params ∧
   ode_parameters s = ode_params ∧ linear_solver_parameters s = lsp).
Proof.
  pose proof (create_ode_solver_known model params ode_params) as Hoin.
  pose proof (create_ode_solver_unknown model params ode_params) as Ho3.
  pose proof (create_pde_solver_known model params pde_params lsp) as Hp2.
  pose proof (create_pde_solver_unknown model params pde_params lsp) as Hp3.
  unfold __init__. cbv zeta. split_and!.
  - split.
    + intros (s & cs & H). revert H. case_decide as Ht; [|done].
      destruct (_create_ode_solver _ _ _) as [o|e] eqn:Ho; [|done].
      destruct (ODESolver_solution_fields o).
      destruct (_create_pde_solver _ _ _ _) as [p|e] eqn:Hp; [|done]. intros _.
      split_and!; [done| |].
      * destruct (decide (SingleCellParameters.solver ode_params
                            ∈ ["BasicCardiacODESolver"; "CardiacODESolver"])) as [|Hn]; [done|].
        pose proof (Ho3 Hn). congruence.
      * destruct (decide (BidomainParameters.solver pde_params
                            ∈ ["BasicBidomainSolver"; "BidomainSolver";
                               "BasicMonodomainSolver"; "MonodomainSolver"])) as [|Hn]; [done|].
        pose proof (Hp3 Hn). congruence.
    + intros (Ht & Hoi & Hpi). rewrite decide_True by done.
      destruct (Hoin Hoi) as [o ->]. destruct (Hp2 Hpi) as [p ->].
      destruct (ODESolver_solution_fields o). eauto.
  - intros Ht Hn. rewrite decide_True by done. by rewrite (Ho3 Hn).
  - intros Ht Hn o Ho. rewrite decide_True by done. rewrite Ho, (Hp3 Hn).
    by destruct (ODESolver_solution_fields o).
  - intros s cs. case_decide as Ht; [|done].
    destruct (_create_ode_solver _ _ _) as [o|e] eqn:Ho; [|done].
    destruct (ODESolver_solution_fields o) as [f g] eqn:Hf.
    destruct (_create_pde_solver _ _ _ _) as [p|e] eqn:Hp; [|done].
    intros [= <- _]. cbn. by rewrite Hf.
Qed.

(** *** The intervals the sub-solvers are stepped over *)

Lemma step_ok_calls (t0 t1 : Qc) (w w' : World) :
  step (t0, t1) w = (Ok tt, w') →
  calls w' = calls w ++ step_calls (SplittingParameters.theta (parameters (self w))) (t0, t1).
Proof.
  intros Hstep. destruct (step_calls_prefix w w' t0 t1 _ Hstep) as (cs & -> & _ & _ & Hcs).
  by rewrite Hcs.
Qed.

Lemma intervals_of_step_calls (theta : Qc) (interval : TimeInterval) :
  pde_intervals (step_calls theta interval) = [interval] ∧
  ode_intervals (step_calls theta interval) = ode_sub_intervals theta interval.
Proof.
  destruct interval as [t0 t1]. unfold step_calls, ode_sub_intervals, split_point.
  by destruct (decide (theta = 1)).
Qed.

Lemma ode_sub_intervals_godunov (l : list TimeInterval) :
  l ≫= ode_sub_intervals 1 = (λ iv, (iv.1, split_point 1 iv)) <$> l.
Proof.
  induction l as [|iv l IH]; [done|].
  cbn [mbind list_bind fmap list_fmap]. cbn [mbind list_bind fmap list_fmap] in IH.
  rewrite IH. unfold ode_sub_intervals. by rewrite decide_True.
Qed.

Lemma run_from_head_calls (l : list TimeInterval) :
  ∀ w : World,
    ending (run_from_head l w) = completed →
    ∃ cs : list Call,
      calls (final (run_from_head l w)) = calls w ++ cs ∧
      pde_intervals cs = l ∧
      ode_intervals cs
      = l ≫= ode_sub_intervals (SplittingParameters.theta (parameters (self w))).
Proof.
  induction l as [|[t0 t1] later IH]; intros w; cbn [run_from_head].
  - intros _. exists []. by rewrite app_nil_r.
  - pose proof (step_keeps_theta (t0, t1) w) as Hk.
    destruct (step (t0, t1) w) as [[[]|e] w'] eqn:Hstep; [|done].
    cbn [ending final snd] in *. intros Hc.
    destruct (IH (after_assign w') Hc) as (cs & Hcs & Hp & Ho).
    destruct (intervals_of_step_calls
                (SplittingParameters.theta (parameters (self w))) (t0, t1)) as [Hp1 Ho1].
    exists (step_calls (SplittingParameters.theta (parameters (self w))) (t0, t1)
            ++ [vs__assign_call] ++ cs).
    split_and!.
    + rewrite Hcs. cbn [after_assign calls]. rewrite (step_ok_calls _ _ _ _ Hstep).
      by rewrite <- !app_assoc.
    + unfold pde_intervals in *. rewrite !omap_app, Hp1, Hp. done.
    + unfold ode_intervals in *. rewrite !omap_app, Ho1, Ho.
      cbn [after_assign self set_vs_ parameters]. rewrite Hk. done.
Qed.

(** X11. A loop over [solve] that completes has called the PDE solver
    exactly once per interval of the time stepper, on that interval, in
    order, and the ODE solver on the sub-intervals of each interval in turn:
    on [(t0, t)] and, unless [theta = 1], on [(t, t1)], for the [t] that
    [step] computes.  With [theta = 1] the ODE solver has been stepped once
    per interval, from the start of the interval to that [t]. *)
Theorem solve_sub_solver_intervals (interval : TimeInterval) (dt : Qc)
    (l : list TimeInterval) (w : World) :
  TimeStepper interval dt = Ok l →
  ending (iterate (solve interval dt) w) = completed →
  ∃ cs : list Call,
    calls (final (iterate (solve interval dt) w)) = calls w ++ cs ∧
    pde_intervals cs = l ∧
    ode_intervals cs
    = l ≫= ode_sub_intervals (SplittingParameters.theta (parameters (self w))) ∧
    (SplittingParameters.theta (parameters (self w)) = 1 →
     ode_intervals cs = (λ iv, (iv.1, split_point 1 iv)) <$> l).
Proof.
  intros Hl. rewrite (iterate_solve _ _ _ _ Hl). intros Hc.
  destruct (run_from_head_calls l w Hc) as (cs & H1 & H2 & H3).
  exists cs. split_and!; [done..|].
  intros Htheta. rewrite H3, Htheta. apply ode_sub_intervals_godunov.
Qed.

(** *** The intervals [solve] iterates over *)

(** C6. For [dt > 0] and [T0 < T1] the time stepper returns a list of
    intervals that tiles [(T0, T1)]: its first interval starts at [T0], each
    interval ends where the next one starts, its last interval ends at [T1],
    and every interval is non-empty, no longer than [dt] and ends no later
    than [T1].  These are the intervals the loop of [solve] runs over: a
    loop over [solve] is handed intervals of this list, in order and from the
    first one on; if it completes it has been handed all of them, and [step]
    has been run on each, which shows in the calls of the PDE solver; if it
    fails, it has been handed those before the interval whose [step] raised.
    On [(0.0, 0.5)] with [dt = 0.1] the list is the five intervals
    [(0.0, 0.1)], ..., [(0.4, 0.5)]. *)
Theorem solve_intervals_tile (T0 T1 dt : Qc) :
  0 < dt → T0 < T1 →
  ∃ l : list TimeInterval,
    TimeStepper (T0, T1) dt = Ok l ∧
    (∃ t : Qc, head l = Some (T0, t)) ∧
    (∀ (i : nat) (iv iv' : TimeInterval),
       l !! i = Some iv → l !! S i = Some iv' → iv.2 = iv'.1) ∧
    (∃ t : Qc, last l = Some (t, T1)) ∧
    (∀ iv : TimeInterval, iv ∈ l →
       iv.1 < iv.2 ∧ iv.2 - iv.1 ≤ dt ∧ iv.2 ≤ T1) ∧
    (∀ w : World,
       let r := iterate (solve (T0, T1) dt) w in
       ending r ≠ cut_short ∧
       (yielded r).*1 `prefix_of` l ∧
       (ending r = completed →
          (yielded r).*1 = l ∧
          ∃ cs : list Call,
            calls (final r) = calls w ++ cs ∧ pde_intervals cs = l) ∧
       (∀ e : Exn, ending r = failed e →
          ∃ (iv : TimeInterval) (later : list TimeInterval),
            l = (yielded r).*1 ++ iv :: later)) ∧
    TimeStepper (Q2Qc 0.0, Q2Qc 0.5) (Q2Qc 0.1) =
      Ok [(Q2Qc 0.0, Q2Qc 0.1); (Q2Qc 0.1, Q2Qc 0.2); (Q2Qc 0.2, Q2Qc 0.3);
          (Q2Qc 0.3, Q2Qc 0.4); (Q2Qc 0.4, Q2Qc 0.5)].
Proof.
  intros Hdt Hlt.
  destruct (TimeStepper_tiles T0 T1 dt Hdt Hlt) as (l & Hl & Ht).
  exists l. split_and!.
  - done.
  - by apply tiles_head with dt T1.
  - by apply tiles_contiguous with dt T0 T1.
  - by apply tiles_last_end with dt T0.
  - intros iv Hin. destruct (tiles_each _ _ _ _ Ht iv Hin) as (? & ? & ? & ?). done.
  - intros w. cbv zeta. rewrite (iterate_solve _ _ _ _ Hl).
    destruct (run_from_head_intervals l w) as (Hc & Hf & Hn). cbv zeta in Hc, Hf, Hn.
    split_and!.
    + done.
    + destruct (ending (run_from_head l w)) as [|e|] eqn:He.
      * by rewrite Hc.
      * destruct (Hf e eq_refl) as (iv & later & _ & Heq & _).
        rewrite Heq at 2. by apply prefix_app_r.
      * done.
    + intros He. split; [by apply Hc|].
      destruct (run_from_head_calls l w He) as (cs & H1 & H2 & _). eauto.
    + intros e He. destruct (Hf e He) as (iv & later & _ & Heq & _). eauto.
  - apply (bool_decide_unpack _). vm_compute. exact I.
Qed.

End Solver.

(** ** The small instance at work *)

Lemma toy_contract :
  SplittingContract Float.exact Toy.ode_step Toy.pde_step_drift Toy.valid_vs Toy.valid_vur.
Proof.
  split.
  - intros o a b d prev old Hprev _. unfold Toy.valid_vs in *. subst prev.
    unfold Toy.ode_step. cbn. f_equal; [f_equal; ring|do 2 f_equal; ring].
  - intros p t0 t1 tentative old r Hprev _. unfold Toy.valid_vs, Toy.valid_vur in *.
    subst tentative. unfold Toy.pde_step_drift. cbn. f_equal. f_equal. ring.
  - intros r t0 t1 f pde Hf Hp. unfold Toy.valid_vs, Toy.valid_vur in *. by subst.
Qed.

(** [__init__] on the toy configuration builds the toy solver. *)
Example init_toy :
  __init__ Toy.ode_solution_fields Toy.pde_vur Toy.model
    (Toy.splitting_parameters Toy.half false) (Toy.bidomain_parameters Toy.half)
    Toy.single_cell_parameters LUParameters
  = (Ok (Toy.solver Toy.half),
     [new_ode_solver (ode_solver (Toy.solver Toy.half));
      new_pde_solver (pde_solver (Toy.solver Toy.half))]).
Proof. reflexivity. Qed.

(** A monodomain solver whose [vur] is not a function on a scalar space:
    the assigner refuses it and the target is not written. *)
Example merge_refuses_mixed_vur :
  let s := Toy.solver 1 in
  let mono :=
    {| _model := _model s; parameters := parameters s;
       pde_parameters := {| BidomainParameters.theta := 1;
                            BidomainParameters.solver := "MonodomainSolver" |};
       ode_parameters := ode_parameters s;
       linear_solver_parameters := linear_solver_parameters s;
       ode_solver := ode_solver s; pde_solver := pde_solver s;
       vs_ := vs_ s; vs := vs s; vur := vur s |} in
  (merge Toy.zero {| self := mono; calls := [] |}).1
  = Raise (RuntimeError "FunctionAssigner: source is not in the assigning space").
Proof. reflexivity. Qed.

(** With different values of [theta], nothing is built. *)
Example init_toy_mismatch :
  __init__ Toy.ode_solution_fields Toy.pde_vur Toy.model
    (Toy.splitting_parameters Toy.half false) (Toy.bidomain_parameters 1)
    Toy.single_cell_parameters LUParameters
  = (Raise (AssertionError "Got two different values for theta."), []).
Proof. reflexivity. Qed.


(** ** The theorems at the small instance *)

(** The Strang step of the toy solver over [(0, 0.1)], by C1. *)
Lemma step_sequence_witness :
  let w := Toy.world Toy.half in
  let out := step Float.exact Toy.ode_step Toy.pde_step (0, Toy.tenth) w in
  raised (Toy.ode_step (ode_solver (self w)) (0, Q2Qc 0.05) (vs_ (self w)) (vs (self w))) = None ∧
  SplittingParameters.theta (parameters (self w)) ≠ 1 ∧
  out.1 = Ok tt ∧
  calls out.2 = [ode_solver_step_call (0, Q2Qc 0.05);
                 pde_solver_step_call (0, Toy.tenth);
                 vs__assign_call;
                 merger_assign_call;
                 ode_solver_step_call (Q2Qc 0.05, Toy.tenth);
                 vs__assign_call] ∧
  vs (self out.2) = {| sub0 := [Q2Qc (3 # 40)]; rest := [[Toy.tenth]] |} ∧
  vs_ (self out.2) = vs (self out.2) ∧
  vur (self out.2) = {| sub0 := [Q2Qc (1 # 40)]; rest := [[Toy.tenth]] |}.
Proof.
  cbv zeta.
  pose proof (step_sequence Float.exact Toy.ode_step Toy.pde_step (Toy.world Toy.half) 0 Toy.tenth) as H.
  cbv zeta in H.
  destruct H as [_ HS]; [reflexivity|by vm_compute|by left|].
  rewrite HS; [|apply (bool_decide_unpack _); by vm_compute|reflexivity].
  apply (bool_decide_unpack _). by vm_compute.
Defined.

(** The toy configuration hands the stimulus to the ODE solver, by C5. *)
Lemma stimulus_goes_to_exactly_one_witness :
  let o := ode_solver (Toy.solver Toy.half) in
  let p := pde_solver (Toy.solver Toy.half) in
  _create_ode_solver Toy.model (Toy.splitting_parameters Toy.half false)
    Toy.single_cell_parameters = Ok o ∧
  _create_pde_solver Toy.model (Toy.splitting_parameters Toy.half false)
    (Toy.bidomain_parameters Toy.half) LUParameters = Ok p ∧
  ODESolver.I_s o = Some (stimulus Toy.model) ∧
  PDESolver.I_s p = None ∧
  (ODESolver.I_s o = Some (stimulus Toy.model) ↔ PDESolver.I_s p ≠ Some (stimulus Toy.model)).
Proof.
  cbv zeta.
  pose proof (stimulus_goes_to_exactly_one Toy.ode_solution_fields Toy.pde_vur Toy.model
                (Toy.splitting_parameters Toy.half false) (Toy.bidomain_parameters Toy.half)
                Toy.single_cell_parameters LUParameters
                (ode_solver (Toy.solver Toy.half)) (pde_solver (Toy.solver Toy.half))
                eq_refl eq_refl) as (_ & Hode & Hone & _).
  destruct (Hode eq_refl) as [H1 H2].
  split; [reflexivity|]. split; [reflexivity|]. split; [exact H1|]. split; [exact H2|exact Hone].
Defined.

(** The five steps of [(0.0, 0.5)] with [dt = 0.1], by C6: the toy Strang
    solver is handed the five intervals, and its PDE solver has been stepped
    over each. *)
Lemma solve_intervals_tile_witness :
  let w := Toy.world Toy.half in
  let r := iterate Float.exact Toy.ode_step Toy.pde_step
             (solve (Q2Qc 0.0, Q2Qc 0.5) (Q2Qc 0.1)) w in
  0 < Q2Qc 0.1 ∧ Q2Qc 0.0 < Q2Qc 0.5 ∧
  ending r = completed ∧
  (yielded r).*1 = toy_intervals ∧
  pde_intervals (calls (final r)) = toy_intervals ∧
  (∃ t : Qc, head toy_intervals = Some (Q2Qc 0.0, t)) ∧
  (∀ (i : nat) (iv iv' : TimeInterval),
     toy_intervals !! i = Some iv → toy_intervals !! S i = Some iv' → iv.2 = iv'.1) ∧
  (∃ t : Qc, last toy_intervals = Some (t, Q2Qc 0.5)) ∧
  (∀ iv : TimeInterval, iv ∈ toy_intervals →
     iv.1 < iv.2 ∧ iv.2 - iv.1 ≤ Q2Qc 0.1 ∧ iv.2 ≤ Q2Qc 0.5).
Proof.
  cbv zeta.
  destruct (solve_intervals_tile Float.exact Toy.ode_step Toy.pde_step
              (Q2Qc 0.0) (Q2Qc 0.5) (Q2Qc 0.1) eq_refl eq_refl)
    as (l & H1 & H2 & H3 & H4 & H5 & H6 & H7).
  assert (l = toy_intervals) as -> by (unfold toy_intervals; congruence).
  assert (He : ending (iterate Float.exact Toy.ode_step Toy.pde_step
                         (solve (Q2Qc 0.0, Q2Qc 0.5) (Q2Qc 0.1)) (Toy.world Toy.half))
               = completed) by (by vm_compute).
  destruct (H6 (Toy.world Toy.half)) as (_ & _ & Hc & _).
  destruct (Hc He) as (Hy & cs & Hcs & Hp).
  split; [reflexivity|]. split; [reflexivity|].
  split_and!; [exact He|exact Hy|rewrite Hcs; exact Hp|exact H2|exact H3|exact H4|exact H5].
Defined.

(** The toy Strang solver over [(0.0, 0.5)]: one assignment is enough, by
    C8. *)
Lemma single_assignment_equivalent_witness :
  let w := Toy.world Toy.half in
  let g := solve (Q2Qc 0.0, Q2Qc 0.5) (Q2Qc 0.1) in
  SplittingParameters.theta (parameters (self w)) < 1 ∧
  same_run (iterate Float.exact Toy.ode_step Toy.pde_step g w)
           (iterate_single_assign Float.exact Toy.ode_step Toy.pde_step g w) ∧
  ending (iterate Float.exact Toy.ode_step Toy.pde_step g w) = completed ∧
  length (yielded (iterate Float.exact Toy.ode_step Toy.pde_step g w)) = 5%nat.
Proof.
  cbv zeta.
  pose proof (single_assignment_equivalent Float.exact Toy.ode_step Toy.pde_step
                (Toy.world Toy.half) eq_refl) as [_ H].
  destruct (H (Q2Qc 0.0, Q2Qc 0.5) (Q2Qc 0.1)) as [Hsame _].
  split; [reflexivity|]. split; [exact Hsame|]. split; by vm_compute.
Defined.

(** C7 as stated fails.  The Godunov toy solver, whose linear solver gives
    up after [t = 0.1], runs over [(0.0, 0.2)] with [dt = 0.1].  The first
    step returns and its result is yielded; the second step raises in the
    PDE sub-step, after its ODE sub-step has overwritten [vs].  Read through
    the value yielded for [(0.0, 0.1)], [vs] is then the tentative state of
    the failed step and [vs_] the state the loop had seen as [vs]. *)
Lemma yielded_fields_overwritten_by_failed_step :
  let r := iterate Float.exact Toy.ode_step (Toy.pde_step_until Toy.tenth)
             (solve (Q2Qc 0.0, Q2Qc 0.2) Toy.tenth) (Toy.world 1) in
  let first := {| sub0 := [Q2Qc (1 # 20)]; rest := [[Toy.tenth]] |} in
  let broken := {| sub0 := [Q2Qc (3 # 20)]; rest := [[Q2Qc 0.2]] |} in
  ending r = failed (RuntimeError "linear solver did not converge") ∧
  yielded r = [((Q2Qc 0.0, Toy.tenth), (ref_vs_, ref_vs, ref_vur))] ∧
  seen r = [((Q2Qc 0.0, Toy.tenth), (Toy.zero, first, first))] ∧
  view (final r) (ref_vs_, ref_vs, ref_vur) = (first, broken, first) ∧
  ¬ yielded_results_remain r.
Proof.
  cbv zeta.
  assert (H : ∀ r : Run,
    bool_decide (((λ y, (y.1, view (final r) y.2)) <$> yielded r) = seen r) = false →
    ¬ yielded_results_remain r).
  { intros r Hd Hr. apply bool_decide_eq_false in Hd. apply Hd.
    unfold yielded_results_remain in Hr.
    apply list_eq_Forall2, Forall2_fmap_l. exact Hr. }
  split_and!; [apply (bool_decide_unpack _); by vm_compute..|].
  apply H. by vm_compute.
Qed.

(** ** The AdEx cell model *)

Module AdExFacts.
Import AdEx.

Lemma where_map (g : Qc → bool) (f : Qc → Qc) (xs : list Qc) :
  where_ (map g xs) f xs = Return (map (λ x, if g x then f x else x) xs).
Proof.
  induction xs as [|x xs IH]; [done|]. cbn [map where_].
  unfold mbind, Result_bind. by rewrite IH.
Qed.

Lemma where_zip (g : Qc → bool) (f : Qc → Qc) (xs ys : list Qc) :
  length xs = length ys →
  where_ (map g xs) f ys = Return (zip_with (λ x y, if g x then f y else y) xs ys).
Proof.
  revert ys. induction xs as [|x xs IH]; intros [|y ys] Hlen; try done.
  cbn [map where_ zip_with]. unfold mbind, Result_bind.
  rewrite IH by (simpl in Hlen; lia). done.
Qed.

Lemma where_Return_length (mask : list bool) (f : Qc → Qc) (xs r : list Qc) :
  where_ mask f xs = Return r → length mask = length xs.
Proof.
  revert xs r. induction mask as [|m mask IH]; intros [|x xs] r; try done.
  cbn [where_]. unfold mbind, Result_bind.
  destruct (where_ mask f xs) as [r'|e] eqn:Hw; [|done].
  intros _. simpl. f_equal. by apply (IH xs r').
Qed.

Lemma lookup_map (f : Qc → Qc) (l : list Qc) (i : nat) :
  map f l !! i = f <$> l !! i.
Proof. revert i. induction l as [|x l IH]; intros [|i]; simpl; auto. Qed.

Lemma reset_below (spike E_L : Qc) (v : Field) :
  E_L ≤ spike → Forall (λ x, x ≤ spike) (reset spike E_L v).
Proof.
  intros Hle. unfold reset. induction v as [|x v IH]; [constructor|].
  cbn [map]. constructor; [|done].
  case_bool_decide as Hx; [done|]. by apply Qcnot_lt_le.
Qed.

Lemma printed_spike (spike : Qc) (v : Field) :
  Exists (λ x, spike < x) v → printed spike v = [" *** Spike *** "].
Proof.
  unfold printed. cbv zeta. intros Hex. rewrite decide_True; [done|].
  induction Hex as [x v Hx|x v Hex IH]; cbn [map].
  - rewrite bool_decide_eq_true_2 by done. rewrite filter_cons_True by done. simpl. lia.
  - destruct (bool_decide (spike < x)).
    + rewrite filter_cons_True by done. simpl. lia.
    + by rewrite filter_cons_False by done.
Qed.

Lemma default_lookups :
  getitem default_parameters "C" = Return (Q2Qc 281) ∧
  getitem default_parameters "g_L" = Return (Q2Qc 30) ∧
  getitem default_parameters "E_L" = Return (Q2Qc (-706 # 10)) ∧
  getitem default_parameters "V_T" = Return (Q2Qc (-504 # 10)) ∧
  getitem default_parameters "Delta_T" = Return (Q2Qc 2) ∧
  getitem default_parameters "tau_w" = Return (Q2Qc 144) ∧
  getitem default_parameters "a" = Return (Q2Qc 4) ∧
  getitem default_parameters "spike" = Return (Q2Qc 20) ∧
  getitem default_parameters "b" = Return (Q2Qc (805 # 10000)).
Proof. split_and!; reflexivity. Qed.

Section Facts.

Variable fl : Float.Arith.
Variable exp : Qc → Result Qc.

Lemma update_closed (params : OrderedDict) (spike E_L b : Qc) (v s : Field) :
  getitem params "spike" = Return spike →
  getitem params "E_L" = Return E_L →
  getitem params "b" = Return b →
  length v = length s →
  update fl params {| sub0 := v; rest := [s] |}
  = Return ({| sub0 := reset spike E_L v; rest := [adapt fl spike b v s] |}, printed spike v).
Proof.
  intros Hs He Hb Hlen. unfold update, mbind, Result_bind.
  rewrite Hs, He, Hb. cbn [split2 rest sub0].
  rewrite (where_map (λ x, bool_decide (spike < x))).
  rewrite (where_zip (λ x, bool_decide (spike < x))) by done.
  reflexivity.
Qed.

Lemma update_inv (params : OrderedDict) (vs vs' : Function) (out : list string) :
  update fl params vs = Return (vs', out) →
  ∃ (spike E_L b : Qc) (v s : Field),
    getitem params "spike" = Return spike ∧
    getitem params "E_L" = Return E_L ∧
    getitem params "b" = Return b ∧
    vs = {| sub0 := v; rest := [s] |} ∧
    length v = length s ∧
    vs' = {| sub0 := reset spike E_L v; rest := [adapt fl spike b v s] |} ∧
    out = printed spike v.
Proof.
  intros Hu. pose proof Hu as Hu'. revert Hu'. unfold update, mbind, Result_bind.
  destruct (getitem params "spike") as [spike|] eqn:Hs; [|done].
  destruct (getitem params "E_L") as [E_L|] eqn:He; [|done].
  destruct (getitem params "b") as [b|] eqn:Hb; [|done].
  destruct vs as [v r]. unfold split2. cbn [rest sub0].
  destruct r as [|s [|s2 r]]; [done| |done].
  rewrite (where_map (λ x, bool_decide (spike < x))).
  destruct (where_ _ _ s) as [s'|] eqn:Hw; [|done]. intros _.
  apply where_Return_length in Hw. rewrite length_map in Hw.
  rewrite (update_closed params spike E_L b v s Hs He Hb Hw) in Hu.
  injection Hu as <- <-. exists spike, E_L, b, v, s. done.
Qed.

Lemma no_spike_fixed (spike E_L b : Qc) (v : Field) :
  Forall (λ x, x ≤ spike) v →
  reset spike E_L v = v ∧ printed spike v = [] ∧
  ∀ s : Field, length v = length s → adapt fl spike b v s = s.
Proof.
  unfold reset, printed, adapt. cbv zeta.
  induction 1 as [|x v Hx Hv (IH1 & IH2 & IH3)]; [split_and!; [done|done|by intros []]|].
  assert (Hb : bool_decide (spike < x) = false).
  { apply bool_decide_eq_false_2. by apply Qcle_not_lt. }
  cbn [map]. rewrite Hb. split_and!.
  - by rewrite IH1.
  - rewrite filter_cons_False by done. exact IH2.
  - intros [|y s] Hlen; [done|]. cbn [zip_with]. rewrite Hb, IH3; [done|]. simpl in Hlen. lia.
Qed.

Lemma div_ok (x y : Qc) : y ≠ 0 → div fl x y = Return (Float.div fl x y).
Proof. intros Hy. unfold div. by rewrite decide_False. Qed.

(** X12. [update] works on a function with exactly two components, [v]
    and [s], of the same size, and resets the spiking degrees of freedom:
    where [v] exceeds [spike] it becomes [E_L] and [s] becomes the float
    [s + b]; every other degree of freedom keeps its [v] and [s]; the sizes
    are kept.  A function with another number of components is refused, with
    nothing written. *)
Theorem update_resets_spiking_dofs (params : OrderedDict) (vs : Function) :
  (∀ (vs' : Function) (out : list string),
     update fl params vs = Return (vs', out) →
     ∃ (spike E_L b : Qc) (v s v' s' : Field),
       getitem params "spike" = Return spike ∧
       getitem params "E_L" = Return E_L ∧
       getitem params "b" = Return b ∧
       vs = {| sub0 := v; rest := [s] |} ∧
       vs' = {| sub0 := v'; rest := [s'] |} ∧
       length v' = length v ∧ length s' = length s ∧ length s = length v ∧
       ∀ (i : nat) (x y : Qc),
         v !! i = Some x → s !! i = Some y →
         (spike < x → v' !! i = Some E_L ∧ s' !! i = Some (Float.add fl y b)) ∧
         (x ≤ spike → v' !! i = Some x ∧ s' !! i = Some y)) ∧
  (∀ spike E_L b : Qc,
     getitem params "spike" = Return spike →
     getitem params "E_L" = Return E_L →
     getitem params "b" = Return b →
     (length (rest vs) ≠ 1%nat → update fl params vs = Throw ValueError) ∧
     (∀ s : Field, rest vs = [s] → length (sub0 vs) = length s →
        ∃ r, update fl params vs = Return r)).
Proof.
  split.
  - intros vs' out Hu.
    destruct (update_inv _ _ _ _ Hu) as (spike & E_L & b & v & s & Hs & He & Hb & -> & Hlen & -> & _).
    exists spike, E_L, b, v, s, (reset spike E_L v), (adapt fl spike b v s).
    split_and!; try done.
    + unfold reset. by rewrite length_map.
    + unfold adapt. rewrite length_zip_with. lia.
    + intros i x y Hx Hy. unfold reset, adapt. unfold Field in *.
      assert (Hz : zip_with (λ x0 y0 : Qc, if bool_decide (spike < x0)
                                           then Float.add fl y0 b else y0) v s !! i
                   = Some (if bool_decide (spike < x) then Float.add fl y b else y)).
      { rewrite lookup_zip_with, Hx. cbn. by rewrite Hy. }
      rewrite lookup_map, Hx, Hz. cbn.
      split; intros Hc.
      * by rewrite bool_decide_eq_true_2.
      * rewrite bool_decide_eq_false_2; [done|]. by apply Qcle_not_lt.
  - intros spike E_L b Hs He Hb. split.
    + intros Hn. unfold update, mbind, Result_bind. rewrite Hs, He, Hb.
      unfold split2. destruct (rest vs) as [|s [|s2 r]]; done.
    + intros s Hr Hlen. destruct vs as [v r]. simpl in *. subst r.
      eexists. by apply update_closed.
Qed.

Lemma update_fixed_after_reset (params : OrderedDict) (spike E_L b : Qc) (v s : Field) :
  getitem params "spike" = Return spike →
  getitem params "E_L" = Return E_L →
  getitem params "b" = Return b →
  length v = length s →
  E_L ≤ spike →
  update fl params {| sub0 := reset spike E_L v; rest := [adapt fl spike b v s] |}
  = Return ({| sub0 := reset spike E_L v; rest := [adapt fl spike b v s] |}, []).
Proof.
  intros Hs He Hb Hlen Hle.
  pose proof (reset_below spike E_L v Hle) as Hbelow.
  destruct (no_spike_fixed spike E_L b _ Hbelow) as (H1 & H2 & H3).
  assert (Hl : length (reset spike E_L v) = length (adapt fl spike b v s)).
  { unfold reset, adapt. rewrite length_map, length_zip_with. lia. }
  rewrite (update_closed params spike E_L b _ _ Hs He Hb Hl).
  by rewrite H1, H2, H3.
Qed.

(** X13. If the reset value [E_L] does not exceed [spike], one [update]
    is enough: after it no degree of freedom exceeds [spike], and a second
    [update] changes nothing and prints nothing. *)
Theorem update_reaches_fixpoint (params : OrderedDict) (vs vs' : Function)
    (out : list string) (E_L spike : Qc) :
  update fl params vs = Return (vs', out) →
  getitem params "E_L" = Return E_L →
  getitem params "spike" = Return spike →
  E_L ≤ spike →
  Forall (λ x, x ≤ spike) (sub0 vs') ∧ update fl params vs' = Return (vs', []).
Proof.
  intros Hu He Hs Hle.
  destruct (update_inv _ _ _ _ Hu) as (spike' & E_L' & b & v & s & Hs' & He' & Hb & -> & Hlen & -> & _).
  assert (spike' = spike) as -> by congruence.
  assert (E_L' = E_L) as -> by congruence.
  split; [by apply reset_below|]. by apply update_fixed_after_reset.
Qed.

(** X14. [update] prints its line once if some degree of freedom exceeded
    [spike], however many did, and nothing otherwise; and when it prints
    nothing it has left the function as it was. *)
Theorem update_prints_iff_spike (params : OrderedDict) (vs vs' : Function)
    (out : list string) (spike : Qc) :
  update fl params vs = Return (vs', out) →
  getitem params "spike" = Return spike →
  (out = [] ∧ vs' = vs ∧ Forall (λ x, x ≤ spike) (sub0 vs)) ∨
  (out = [" *** Spike *** "] ∧ Exists (λ x, spike < x) (sub0 vs)).
Proof.
  intros Hu Hs.
  destruct (update_inv _ _ _ _ Hu) as (spike' & E_L & b & v & s & Hs' & He & Hb & -> & Hlen & -> & ->).
  assert (spike' = spike) as -> by congruence. cbn [sub0].
  destruct (decide (Exists (λ x, spike < x) v)) as [Hex|Hno].
  - right. split; [|done]. by apply printed_spike.
  - left. apply not_Exists_Forall in Hno; [|intros x; apply _].
    assert (Hall : Forall (λ x, x ≤ spike) v).
    { eapply Forall_impl; [exact Hno|]. intros x Hx. by apply Qcnot_lt_le. }
    destruct (no_spike_fixed spike E_L b v Hall) as (H1 & H2 & H3).
    rewrite H1, H2, H3 by done. done.
Qed.

(** [I] with its parameters looked up and its divisors other than zero:
    what is left is [exp] and the conditional. *)
Lemma I_closed (params : OrderedDict) (C g_L E_L V_T Delta_T spike : Qc) (V w : Qc) :
  getitem params "C" = Return C →
  getitem params "g_L" = Return g_L →
  getitem params "E_L" = Return E_L →
  getitem params "V_T" = Return V_T →
  getitem params "Delta_T" = Return Delta_T →
  getitem params "spike" = Return spike →
  C ≠ 0 → Delta_T ≠ 0 →
  I fl exp params V w =
    match exp (Float.div fl (Float.sub fl V V_T) Delta_T) with
    | Return exp_x =>
        Return (- (if decide (V < Float.add fl spike 0)
                   then Float.mul fl (Float.div fl 1 C)
                          (Float.sub fl
                             (Float.sub fl (Float.mul fl (Float.mul fl g_L Delta_T) exp_x)
                                           (Float.mul fl g_L (Float.sub fl V E_L)))
                             w)
                   else 0))
    | Throw e => Throw e
    end.
Proof.
  intros HC Hg HE HV HD Hs HC0 HD0. unfold I, mbind, Result_bind.
  rewrite HC, Hg, HE, HV, HD, Hs, !div_ok by done. reflexivity.
Qed.

(** X16. The default parameters hold every key the methods read, under
    the name they read it by, and no divisor in them is zero.  With them [I]
    raises nothing but what [exp] raises, on [(V - V_T)/Delta_T]: it returns
    a value when [exp] does, and raises what [exp] raises when it does not.
    [F] and [default_initial_conditions] return a value for every [V] and
    [w], the initial conditions have one entry per variable, and [update]
    returns on every two-component function whose components have the same
    size and is at its fixed point after one call. *)
Theorem default_parameters_complete :
  (∀ V w : Qc,
     let x := Float.div fl (Float.sub fl V (Q2Qc (-504 # 10))) (Q2Qc 2) in
     (∀ y : Qc, exp x = Return y → ∃ i, I fl exp default_parameters V w = Return i) ∧
     (∀ e : Exc, exp x = Throw e → I fl exp default_parameters V w = Throw e)) ∧
  (∀ V w : Qc, ∃ f, F fl default_parameters V w = Return f) ∧
  (∃ ic, default_initial_conditions default_parameters = Return ic ∧
         ic.*1 = ["V"; "w"] ∧ length ic = S num_states) ∧
  (∀ v s : Field, length v = length s →
     ∃ vs' out,
       update fl default_parameters {| sub0 := v; rest := [s] |} = Return (vs', out) ∧
       update fl default_parameters vs' = Return (vs', [])).
Proof.
  destruct default_lookups as (HC & Hg & HE & HV & HD & Ht & Ha & Hs & Hb).
  assert (H281 : Q2Qc 281 ≠ 0) by (by intros H%(f_equal this)).
  assert (H2 : Q2Qc 2 ≠ 0) by (by intros H%(f_equal this)).
  assert (H144 : Q2Qc 144 ≠ 0) by (by intros H%(f_equal this)).
  split_and!.
  - intros V w x. subst x.
    rewrite (I_closed default_parameters _ _ _ _ _ _ V w HC Hg HE HV HD Hs H281 H2).
    split.
    + intros y ->. eauto.
    + by intros e ->.
  - intros V w. unfold F, mbind, Result_bind.
    rewrite Ha, HE, Ht, !div_ok by done. eauto.
  - eexists. unfold default_initial_conditions, mbind, Result_bind. rewrite HE. done.
  - intros v s Hlen. do 2 eexists. split.
    + by apply (update_closed _ _ _ _ v s Hs HE Hb).
    + by apply (update_fixed_after_reset _ _ _ _ v s Hs HE Hb).
Qed.

(** X17. [I] evaluates [exp] before [conditional] chooses: at and above
    the threshold [spike + tol] the ionic current is zero, whatever [w] is,
    if [exp] returns, and what [exp] raises is raised by [I] on either side
    of the threshold.  [update] resets only strictly above [spike]: with
    [spike + tol = spike], a degree of freedom that sits exactly at [spike]
    has no ionic current and is not reset. *)
Theorem threshold_is_not_reset (params : OrderedDict)
    (C g_L E_L V_T Delta_T spike b : Qc) :
  getitem params "C" = Return C →
  getitem params "g_L" = Return g_L →
  getitem params "E_L" = Return E_L →
  getitem params "V_T" = Return V_T →
  getitem params "Delta_T" = Return Delta_T →
  getitem params "spike" = Return spike →
  getitem params "b" = Return b →
  C ≠ 0 → Delta_T ≠ 0 →
  Float.add fl spike 0 = spike →
  (∀ V w y : Qc,
     spike ≤ V →
     exp (Float.div fl (Float.sub fl V V_T) Delta_T) = Return y →
     I fl exp params V w = Return 0) ∧
  (∀ (V w : Qc) (e : Exc),
     exp (Float.div fl (Float.sub fl V V_T) Delta_T) = Throw e →
     I fl exp params V w = Throw e) ∧
  (∀ w : Qc,
     update fl params {| sub0 := [spike]; rest := [[w]] |}
     = Return ({| sub0 := [spike]; rest := [[w]] |}, [])) ∧
  (∀ V w : Qc, spike < V →
     update fl params {| sub0 := [V]; rest := [[w]] |}
     = Return ({| sub0 := [E_L]; rest := [[Float.add fl w b]] |}, [" *** Spike *** "])).
Proof.
  intros HC Hg HE HV HD Hs Hb HC0 HD0 Htol. split_and!.
  - intros V w y Hle Hexp.
    rewrite (I_closed params C g_L E_L V_T Delta_T spike V w) by done.
    rewrite Hexp, Htol. rewrite decide_False by (by apply Qcle_not_lt).
    f_equal; ring.
  - intros V w e Hexp.
    rewrite (I_closed params C g_L E_L V_T Delta_T spike V w) by done.
    by rewrite Hexp.
  - intros w. etrans; [by apply (update_closed params spike E_L b [spike] [w])|].
    destruct (no_spike_fixed spike E_L b [spike]) as (H1 & H2 & H3).
    { constructor; [apply Qcle_refl|constructor]. }
    by rewrite H1, H2, (H3 [w] eq_refl).
  - intros V w Hlt. etrans; [by apply (update_closed params spike E_L b [V] [w])|].
    rewrite printed_spike by (by constructor).
    unfold reset, adapt. cbn [map zip_with]. by rewrite bool_decide_eq_true_2.
Qed.

End Facts.

End AdExFacts.

(** ** The further properties at the small instances *)

Lemma toy_time_stepper :
  TimeStepper (Q2Qc 0.0, Q2Qc 0.5) (Q2Qc 0.1) = Ok toy_intervals.
Proof. apply (bool_decide_unpack _). by vm_compute. Qed.

Lemma toy_time_stepper_short :
  TimeStepper (Q2Qc 0.0, Q2Qc 0.2) Toy.tenth = Ok [(Q2Qc 0.0, Q2Qc 0.1); (Q2Qc 0.1, Q2Qc 0.2)].
Proof. apply (bool_decide_unpack _). by vm_compute. Qed.

(** The Strang toy solver is handed the five intervals, by X1. *)
Lemma solve_yields_one_per_interval_witness :
  let r := iterate Float.exact Toy.ode_step Toy.pde_step
             (solve (Q2Qc 0.0, Q2Qc 0.5) (Q2Qc 0.1)) (Toy.world Toy.half) in
  TimeStepper (Q2Qc 0.0, Q2Qc 0.5) (Q2Qc 0.1) = Ok toy_intervals ∧
  ending r = completed ∧
  (yielded r).*1 = toy_intervals.
Proof.
  cbv zeta.
  destruct (solve_yields_one_per_interval Float.exact Toy.ode_step Toy.pde_step
              (Q2Qc 0.0, Q2Qc 0.5) (Q2Qc 0.1) toy_intervals (Toy.world Toy.half)
              toy_time_stepper) as (Hc & _ & _).
  assert (He : ending (iterate Float.exact Toy.ode_step Toy.pde_step
                         (solve (Q2Qc 0.0, Q2Qc 0.5) (Q2Qc 0.1)) (Toy.world Toy.half))
               = completed) by (by vm_compute).
  split; [exact toy_time_stepper|]. split; [exact He|exact (Hc He)].
Defined.

(** The Godunov toy solver ends its run with [vs_ = vs], by X2. *)
Lemma solve_completed_previous_is_current_witness :
  let r := iterate Float.exact Toy.ode_step Toy.pde_step
             (solve (Q2Qc 0.0, Q2Qc 0.5) (Q2Qc 0.1)) (Toy.world 1) in
  TimeStepper (Q2Qc 0.0, Q2Qc 0.5) (Q2Qc 0.1) = Ok toy_intervals ∧
  toy_intervals ≠ [] ∧
  ending r = completed ∧
  vs_ (self (final r)) = vs (self (final r)).
Proof.
  cbv zeta.
  assert (He : ending (iterate Float.exact Toy.ode_step Toy.pde_step
                         (solve (Q2Qc 0.0, Q2Qc 0.5) (Q2Qc 0.1)) (Toy.world 1))
               = completed) by (by vm_compute).
  assert (Hne : toy_intervals ≠ []) by done.
  split; [exact toy_time_stepper|]. split; [exact Hne|]. split; [exact He|].
  exact (solve_completed_previous_is_current Float.exact Toy.ode_step Toy.pde_step
           (Q2Qc 0.0, Q2Qc 0.5) (Q2Qc 0.1) toy_intervals (Toy.world 1)
           toy_time_stepper Hne He).
Defined.

(** The failing Godunov run of the counterexample to C7: its [vs_] is
    still the state yielded for [(0.0, 0.1)], by X4. *)
Lemma godunov_previous_is_last_yielded_witness :
  let r := iterate Float.exact Toy.ode_step (Toy.pde_step_until Toy.tenth)
             (solve (Q2Qc 0.0, Q2Qc 0.2) Toy.tenth) (Toy.world 1) in
  SplittingParameters.theta (parameters (self (Toy.world 1))) = 1 ∧
  ending r = failed (RuntimeError "linear solver did not converge") ∧
  chained (vs_ (self (Toy.world 1))) (seen r) ∧
  vs_ (self (final r)) = last_current (vs_ (self (Toy.world 1))) (seen r) ∧
  vs_ (self (final r)) = {| sub0 := [Q2Qc (1 # 20)]; rest := [[Toy.tenth]] |}.
Proof.
  cbv zeta.
  destruct (godunov_previous_is_last_yielded Float.exact Toy.ode_step (Toy.pde_step_until Toy.tenth)
              (Q2Qc 0.0, Q2Qc 0.2) Toy.tenth _ (Toy.world 1)
              toy_time_stepper_short eq_refl) as [Hc Hf].
  split; [reflexivity|]. split; [by vm_compute|]. split; [exact Hc|]. split; [exact Hf|].
  apply (bool_decide_unpack _). by vm_compute.
Defined.

(** The step of the toy solver that fails: what it raises was raised by
    its PDE solver, by X6. *)
Lemma step_raises_only_from_collaborators_witness :
  let w := Toy.world 1 in
  let out := step Float.exact Toy.ode_step (Toy.pde_step_until Toy.tenth) (Toy.tenth, Q2Qc 0.2) w in
  let e := RuntimeError "linear solver did not converge" in
  out.1 = Raise e ∧
  ((∃ (iv : TimeInterval) (prev old : Function),
      raised (Toy.ode_step (ode_solver (self w)) iv prev old) = Some e) ∨
   (∃ (v : Field) (old : Function),
      raised (Toy.pde_step_until Toy.tenth (pde_solver (self w)) (Toy.tenth, Q2Qc 0.2) v old)
      = Some e) ∨
   (is_bidomain (BidomainParameters.solver (pde_parameters (self w))) = false ∧
    rest (vur (self out.2)) ≠ [] ∧
    e = RuntimeError "FunctionAssigner: source is not in the assigning space")).
Proof.
  cbv zeta.
  assert (H1 : (step Float.exact Toy.ode_step (Toy.pde_step_until Toy.tenth) (Toy.tenth, Q2Qc 0.2)
                  (Toy.world 1)).1
               = Raise (RuntimeError "linear solver did not converge")) by (by vm_compute).
  split; [exact H1|].
  destruct (step _ _ _ _) as [r w'] eqn:Hstep. simpl in H1. subst r.
  exact (step_raises_only_from_collaborators Float.exact Toy.ode_step (Toy.pde_step_until Toy.tenth)
           Toy.tenth (Q2Qc 0.2) (Toy.world 1) w' _ Hstep).
Defined.

(** The sub-solver calls of the Godunov toy run, by X11. *)
Lemma solve_sub_solver_intervals_witness :
  let w := Toy.world 1 in
  let r := iterate Float.exact Toy.ode_step Toy.pde_step
             (solve (Q2Qc 0.0, Q2Qc 0.5) (Q2Qc 0.1)) w in
  TimeStepper (Q2Qc 0.0, Q2Qc 0.5) (Q2Qc 0.1) = Ok toy_intervals ∧
  ending r = completed ∧
  ∃ cs : list Call,
    calls (final r) = calls w ++ cs ∧
    pde_intervals cs = toy_intervals ∧
    ode_intervals cs = (λ iv, (iv.1, split_point Float.exact 1 iv)) <$> toy_intervals.
Proof.
  cbv zeta.
  assert (He : ending (iterate Float.exact Toy.ode_step Toy.pde_step
                         (solve (Q2Qc 0.0, Q2Qc 0.5) (Q2Qc 0.1)) (Toy.world 1))
               = completed) by (by vm_compute).
  split; [exact toy_time_stepper|]. split; [exact He|].
  destruct (solve_sub_solver_intervals Float.exact Toy.ode_step Toy.pde_step
              (Q2Qc 0.0, Q2Qc 0.5) (Q2Qc 0.1) toy_intervals (Toy.world 1)
              toy_time_stepper He) as (cs & H1 & H2 & _ & H4).
  exists cs. split; [exact H1|]. split; [exact H2|exact (H4 eq_refl)].
Defined.

Module AdExWitnesses.
Import AdEx AdExToy AdExFacts.

Lemma update_spiking :
  update Float.exact default_parameters spiking
  = Return (after_spike, [" *** Spike *** "]).
Proof.
  destruct default_lookups as (_ & _ & HE & _ & _ & _ & _ & Hs & Hb).
  etrans; [by apply (update_closed Float.exact default_parameters _ _ _
                       [Q2Qc 25; Q2Qc (-60)] [Q2Qc 1; Q2Qc 2] Hs HE Hb)|].
  unfold after_spike, reset, adapt, printed. cbv zeta. cbn [map zip_with].
  rewrite bool_decide_eq_true_2 by done.
  rewrite bool_decide_eq_false_2 by (by apply Qcle_not_lt).
  repeat f_equal. by apply Qc_is_canon.
Qed.

(** One [update] of the spiking function is enough, by X13. *)
Lemma update_reaches_fixpoint_witness :
  update Float.exact default_parameters spiking
  = Return (after_spike, [" *** Spike *** "]) ∧
  getitem default_parameters "E_L" = Return (Q2Qc (-706 # 10)) ∧
  getitem default_parameters "spike" = Return (Q2Qc 20) ∧
  Q2Qc (-706 # 10) ≤ Q2Qc 20 ∧
  Forall (λ x, x ≤ Q2Qc 20) (sub0 after_spike) ∧
  update Float.exact default_parameters after_spike = Return (after_spike, []).
Proof.
  assert (Hle : Q2Qc (-706 # 10) ≤ Q2Qc 20) by done.
  split; [exact update_spiking|]. split; [reflexivity|]. split; [reflexivity|].
  split; [exact Hle|].
  exact (update_reaches_fixpoint Float.exact default_parameters spiking after_spike _ _ _
           update_spiking eq_refl eq_refl Hle).
Defined.

(** The spiking function makes [update] print, by X14. *)
Lemma update_prints_iff_spike_witness :
  update Float.exact default_parameters spiking
  = Return (after_spike, [" *** Spike *** "]) ∧
  getitem default_parameters "spike" = Return (Q2Qc 20) ∧
  (([" *** Spike *** "] = [] ∧ after_spike = spiking ∧
    Forall (λ x, x ≤ Q2Qc 20) (sub0 spiking)) ∨
   ([" *** Spike *** "] = [" *** Spike *** "] ∧
    Exists (λ x, Q2Qc 20 < x) (sub0 spiking))).
Proof.
  split; [exact update_spiking|]. split; [reflexivity|].
  exact (update_prints_iff_spike Float.exact default_parameters spiking after_spike _ _
           update_spiking eq_refl).
Defined.

(** The threshold of the default parameters, by X17: at [V = 20] the toy
    [exp] returns and the current is zero; at [V = 1500] it overflows, and so
    does [I]. *)
Lemma threshold_is_not_reset_witness :
  getitem default_parameters "C" = Return (Q2Qc 281) ∧
  getitem default_parameters "Delta_T" = Return (Q2Qc 2) ∧
  Q2Qc 281 ≠ 0 ∧ Q2Qc 2 ≠ 0 ∧
  Float.add Float.exact (Q2Qc 20) 0 = Q2Qc 20 ∧
  exp_until_709 (Float.div Float.exact
                   (Float.sub Float.exact (Q2Qc 20) (Q2Qc (-504 # 10))) (Q2Qc 2))
  = Return (Q2Qc (362 # 10)) ∧
  I Float.exact exp_until_709 default_parameters (Q2Qc 20) (Q2Qc 1) = Return 0 ∧
  exp_until_709 (Float.div Float.exact
                   (Float.sub Float.exact (Q2Qc 1500) (Q2Qc (-504 # 10))) (Q2Qc 2))
  = Throw OverflowError ∧
  I Float.exact exp_until_709 default_parameters (Q2Qc 1500) 0 = Throw OverflowError ∧
  update Float.exact default_parameters {| sub0 := [Q2Qc 20]; rest := [[Q2Qc 1]] |}
  = Return ({| sub0 := [Q2Qc 20]; rest := [[Q2Qc 1]] |}, []).
Proof.
  assert (H281 : Q2Qc 281 ≠ 0) by (by intros H%(f_equal this)).
  assert (H2 : Q2Qc 2 ≠ 0) by (by intros H%(f_equal this)).
  assert (Htol : Float.add Float.exact (Q2Qc 20) 0 = Q2Qc 20) by (cbn; ring).
  assert (Hret : exp_until_709 (Float.div Float.exact
                   (Float.sub Float.exact (Q2Qc 20) (Q2Qc (-504 # 10))) (Q2Qc 2))
                 = Return (Q2Qc (362 # 10))).
  { unfold exp_until_709. rewrite decide_False by (by vm_compute).
    f_equal. by apply Qc_is_canon. }
  assert (Hraise : exp_until_709 (Float.div Float.exact
                     (Float.sub Float.exact (Q2Qc 1500) (Q2Qc (-504 # 10))) (Q2Qc 2))
                   = Throw OverflowError).
  { unfold exp_until_709. by rewrite decide_True by (by vm_compute). }
  destruct (threshold_is_not_reset Float.exact exp_until_709 default_parameters
              _ _ _ _ _ _ _
              eq_refl eq_refl eq_refl eq_refl eq_refl eq_refl eq_refl H281 H2 Htol)
    as (HI & HT & Hu & _).
  split_and!; [reflexivity|reflexivity|exact H281|exact H2|exact Htol|exact Hret| |exact Hraise| |].
  - exact (HI (Q2Qc 20) (Q2Qc 1) _ (Qcle_refl _) Hret).
  - exact (HT (Q2Qc 1500) 0 _ Hraise).
  - apply Hu.
Defined.

End AdExWitnesses.
